(** * pitch_compare: the alignment and deviation-scoring engine

    Shallow embedding of [src/pitch_compare.py]: [hz_to_cents],
    [align_with_dtw], [calculate_pitch_diff] and the statistics, tier counts
    and verdict of [generate_report], together with the two library routines
    they call ([numpy.nan_to_num] and [librosa.sequence.dtw] with its default
    step pattern).

    Numbers.  A numpy [float64] is a value of [F64]: the three special values
    NaN, -inf, +inf, or a finite number.  Finite numbers are exact rationals:
    rounding and the sign of zero are not represented.  Overflow to an
    infinity is represented where the program reaches it, in the cost matrix
    and the accumulated costs of the DTW routine, whose inputs hold the
    largest finite number as soon as a frame is 0 Hz or +inf.
    [numpy.log2] on a positive finite argument is a parameter [lg] of the
    development. *)

From Stdlib Require Import String.
From Stdlib Require Import QArith Qabs Qround Lqa ZArith List Bool Arith Lia.
From Stdlib Require Import DecimalString.
Import ListNotations.

Local Open Scope Q_scope.

(** ** float64 values *)

Inductive F64 : Type :=
| NaN
| NegInf
| PosInf
| Fin (q : Q).

Definition Qltb (x y : Q) : bool :=
  match x ?= y with Lt => true | _ => false end.

Definition isnan (x : F64) : bool :=
  match x with NaN => true | _ => false end.

Definition fneg (x : F64) : F64 :=
  match x with
  | NaN => NaN
  | NegInf => PosInf
  | PosInf => NegInf
  | Fin q => Fin (- q)
  end.

Definition fadd (x y : F64) : F64 :=
  match x, y with
  | NaN, _ | _, NaN => NaN
  | PosInf, NegInf | NegInf, PosInf => NaN
  | PosInf, _ | _, PosInf => PosInf
  | NegInf, _ | _, NegInf => NegInf
  | Fin a, Fin b => Fin (a + b)
  end.

Definition fsub (x y : F64) : F64 := fadd x (fneg y).

(** Sign of an infinite product or quotient: [s] scaled by the sign of [q]
    ([inf * 0] is NaN). *)
Definition inf_times (pos : bool) (q : Q) : F64 :=
  match q ?= 0 with
  | Eq => NaN
  | Gt => if pos then PosInf else NegInf
  | Lt => if pos then NegInf else PosInf
  end.

Definition fmul (x y : F64) : F64 :=
  match x, y with
  | NaN, _ | _, NaN => NaN
  | Fin a, Fin b => Fin (a * b)
  | PosInf, PosInf | NegInf, NegInf => PosInf
  | PosInf, NegInf | NegInf, PosInf => NegInf
  | PosInf, Fin b => inf_times true b
  | NegInf, Fin b => inf_times false b
  | Fin a, PosInf => inf_times true a
  | Fin a, NegInf => inf_times false a
  end.

(** numpy's true division: a finite non-zero number over zero is an infinity,
    zero over zero and infinity over infinity are NaN; none of them raises. *)
Definition fdiv (x y : F64) : F64 :=
  match x, y with
  | NaN, _ | _, NaN => NaN
  | Fin a, Fin b =>
      match b ?= 0 with
      | Eq => inf_times true a
      | _ => Fin (a / b)
      end
  | Fin _, _ => Fin 0
  | PosInf, Fin b => if Qltb b 0 then NegInf else PosInf
  | NegInf, Fin b => if Qltb b 0 then PosInf else NegInf
  | _, _ => NaN
  end.

Definition fabs (x : F64) : F64 :=
  match x with
  | NaN => NaN
  | NegInf | PosInf => PosInf
  | Fin q => Fin (Qabs q)
  end.

(** [x < y]; false as soon as one side is NaN. *)
Definition fltb (x y : F64) : bool :=
  match x, y with
  | NaN, _ | _, NaN => false
  | _, NegInf => false
  | NegInf, _ => true
  | PosInf, _ => false
  | Fin _, PosInf => true
  | Fin a, Fin b => Qltb a b
  end.

(** [x >= y]; false as soon as one side is NaN. *)
Definition fgeb (x y : F64) : bool :=
  match x, y with
  | NaN, _ | _, NaN => false
  | _, NegInf => true
  | PosInf, _ => true
  | NegInf, _ => false
  | Fin _, PosInf => false
  | Fin a, Fin b => Qle_bool b a
  end.

Definition fgtb (x y : F64) : bool := fltb y x.

(** Largest finite float64, [numpy.finfo(float64).max]. *)
Definition float_max : Q := inject_Z (2 ^ 1024 - 2 ^ 971).

(** [numpy.nan_to_num(x, nan=nan)]: NaN becomes [nan], the infinities become
    the largest and the smallest finite number. *)
Definition nan_to_num (nan : Q) (x : F64) : F64 :=
  match x with
  | NaN => Fin nan
  | PosInf => Fin float_max
  | NegInf => Fin (- float_max)
  | Fin q => Fin q
  end.

(** The least magnitude that rounds to an infinity: half a unit in the last
    place above [float_max]. *)
Definition overflow_threshold : Q := inject_Z (2 ^ 1024 - 2 ^ 970).

(** The float64 result of an operation whose exact result is [x]. *)
Definition overflow (x : F64) : F64 :=
  match x with
  | Fin q =>
      if Qle_bool overflow_threshold q then PosInf
      else if Qle_bool q (- overflow_threshold) then NegInf
      else Fin q
  | _ => x
  end.

(** ** Python exceptions *)

Inductive result (A : Type) : Type :=
| Ok (a : A)
| Raise (exc : string).

Arguments Ok {A} a.
Arguments Raise {A} exc.

Definition bind {A B : Type} (r : result A) (k : A -> result B) : result B :=
  match r with
  | Ok a => k a
  | Raise e => Raise e
  end.

Notation "x <- r ;; k" := (bind r (fun x => k))
  (at level 61, r at next level, right associativity).

Definition IndexError : string := "IndexError".
Definition ParameterError : string := "ParameterError".
Definition ValueError : string := "ValueError".

(** Indexing a numpy array by a non-negative index. *)
Definition getitem {A : Type} (a : list A) (i : nat) : result A :=
  match nth_error a i with
  | Some x => Ok x
  | None => Raise IndexError
  end.

(** ** [librosa.sequence.dtw]

    The call of [align_with_dtw] passes two feature matrices of shape (1, N)
    and (1, M), [metric='euclidean'], and leaves every other argument at its
    default: step sizes [[1,1],[0,1],[1,0]], additive weights 0,
    multiplicative weights 1, no subsequence matching, backtracking on. *)

(** [scipy.spatial.distance.cdist(..., 'euclidean')] for one feature per
    frame: the square root of a single squared difference.  The difference
    and its square are float64 operations; when the square overflows, its
    root is +inf. *)
Definition euclidean (a b : F64) : F64 :=
  let d := overflow (fsub a b) in
  match overflow (fmul d d) with
  | Fin _ => fabs d
  | s => s
  end.

Definition cdist (X Y : list F64) : list (list F64) :=
  map (fun a => map (euclidean a) Y) X.

(** One pass of the innermost loop for step [k], whose predecessor cell holds
    [cur_D]: the cell keeps the smaller accumulated cost and records the step
    that gave it.  The comparison is strict, so among equal costs the step
    tried first stays. *)
Definition try_step (c : F64) (cell : F64 * nat) (k : nat) (cur_D : F64)
  : F64 * nat :=
  let cur_cost := overflow (fadd cur_D c) in
  if fltb cur_cost (fst cell) then (cur_cost, k) else cell.

(** The three steps in the order of [step_sizes_sigma]: (1,1) from the
    diagonal cell, (0,1) from the cell before it in the same row, (1,0) from
    the cell above. *)
Definition accu_cell (c diag left up : F64) (init : F64 * nat) : F64 * nat :=
  try_step c (try_step c (try_step c init 0%nat diag) 1%nat left) 2%nat up.

(** One row of [__dtw_calc_accu_cost].  [prev] is the padded row above,
    starting at the diagonal neighbour of the first cell; [left] is the cell
    before the first one; [init] is what the first cell holds before the
    loop, every later cell holding (+inf, 0). *)
Fixpoint accu_row (crow prev : list F64) (left : F64) (init : F64 * nat)
  : list (F64 * nat) :=
  match crow, prev with
  | c :: crow', diag :: ((up :: _) as prev') =>
      let cell := accu_cell c diag left up init in
      cell :: accu_row crow' prev' (fst cell) (PosInf, 0%nat)
  | _, _ => []
  end.

(** The rows of the padded matrix below the row [prev]; column 0 of every
    row is the +inf padding. *)
Fixpoint accu_cost (C : list (list F64)) (prev : list F64) (init : F64 * nat)
  : list (list (F64 * nat)) :=
  match C with
  | [] => []
  | crow :: C' =>
      let cells := accu_row crow prev PosInf init in
      cells :: accu_cost C' (PosInf :: map fst cells) (PosInf, 0%nat)
  end.

Definition step_sizes_sigma : list (nat * nat) := [(1, 1); (0, 1); (1, 0)]%nat.

Definition steps_at (steps : list (list nat)) (cur : nat * nat) : nat :=
  nth (snd cur) (nth (fst cur) steps []) 0%nat.

(** [cur_idx - step_sizes_sigma[k]], or [None] when a coordinate would
    become negative (the loop breaks there). *)
Definition step_back (cur : nat * nat) (k : nat) : option (nat * nat) :=
  let '(di, dj) := nth k step_sizes_sigma (0, 0)%nat in
  if ((fst cur <? di) || (snd cur <? dj))%nat then None
  else Some (fst cur - di, snd cur - dj)%nat.

Definition is_origin (cur : nat * nat) : bool :=
  ((fst cur =? 0) && (snd cur =? 0))%nat.

(** The [while cur_idx != (0, 0)] loop of [__dtw_backtracking]; it returns
    what is appended to the path after the starting cell.  Every iteration
    lowers the sum of the two coordinates, so [fuel] equal to that sum is
    never exhausted before the loop ends. *)
Fixpoint backtrack_loop (fuel : nat) (steps : list (list nat))
  (cur : nat * nat) : list (nat * nat) :=
  match fuel with
  | O => []
  | S fuel' =>
      if is_origin cur then []
      else match step_back cur (steps_at steps cur) with
           | None => []
           | Some nxt => nxt :: backtrack_loop fuel' steps nxt
           end
  end.

(** [__dtw_backtracking]: the path starts at the last cell and is appended
    to while walking back; it is returned as built. *)
Definition dtw_backtracking (steps : list (list nat)) : list (nat * nat) :=
  let start := (List.length steps - 1, List.length (hd [] steps) - 1)%nat in
  start :: backtrack_loop (fst start + snd start) steps start.

(** [D, wp = librosa.sequence.dtw(X, Y, metric='euclidean')].  Before the
    cost matrix is built the two inputs are reshaped with their frames
    first, [X.reshape((X.shape[0], -1))]; for an input of no frame numpy
    refuses this with [ValueError] (releases of the library without the
    reshape fail later, on reading [C[0, 0]]).  A path that leaves the
    matrix before the origin, as happens when costs overflow, makes the
    routine raise [ParameterError]. *)
Definition dtw (X Y : list F64)
  : result (list (list F64) * list (nat * nat)) :=
  if ((List.length X =? 0) || (List.length Y =? 0))%nat then Raise ValueError
  else
  let C := cdist X Y in
  if existsb (existsb isnan) C then Raise ParameterError
  else match C with
       | (c00 :: _) :: _ =>
           let cells :=
             accu_cost C (repeat PosInf (S (List.length Y))) (c00, 0%nat) in
           let D := map (map fst) cells in
           let steps := map (map snd) cells in
           let wp := dtw_backtracking steps in
           if is_origin (last wp (0, 0)%nat) then Ok (D, wp)
           else Raise ParameterError
       | _ => Raise IndexError
       end.

(** Reading the cost matrix and the accumulated cells by index; the padded
    accumulated-cost matrix has +inf in its row 0 and its column 0. *)
Definition cost_at (C : list (list F64)) (i j : nat) : F64 :=
  nth j (nth i C []) PosInf.

Definition cell_at (cells : list (list (F64 * nat))) (i j : nat) : F64 * nat :=
  nth j (nth i cells []) (PosInf, 0%nat).

Definition padded_at (cells : list (list (F64 * nat))) (i j : nat) : F64 :=
  match i, j with
  | S i', S j' => fst (cell_at cells i' j')
  | _, _ => PosInf
  end.

(** ** Alignment paths *)

(** Every element of the list is related to the one after it. *)
Fixpoint stepwise {A : Type} (R : A -> A -> Prop) (l : list A) : Prop :=
  match l with
  | a :: ((b :: _) as t) => R a b /\ stepwise R t
  | _ => True
  end.

(** [n] is [p] moved by one of the steps (1,0), (0,1), (1,1). *)
Definition forward_step (p n : nat * nat) : Prop :=
  n = (S (fst p), snd p) \/ n = (fst p, S (snd p))
  \/ n = (S (fst p), S (snd p)).

(** [n] is [p] moved back by one of these steps. *)
Definition backward_step (p n : nat * nat) : Prop := forward_step n p.

(** The recorded steps never lead out of an [N] by [M] matrix: each is one of
    the three steps, the first row only holds (0,1) and the first column
    only (1,0) (the origin apart). *)
Definition steps_in_bounds (steps : list (list nat)) (N M : nat) : Prop :=
  forall i j, (i < N)%nat -> (j < M)%nat ->
    (steps_at steps (i, j) <= 2)%nat /\
    (i = 0%nat -> (0 < j)%nat -> steps_at steps (i, j) = 1%nat) /\
    ((0 < i)%nat -> j = 0%nat -> steps_at steps (i, j) = 2%nat).

(** The number held by a finite value. *)
Definition finite_value (x : F64) : Q :=
  match x with
  | Fin q => q
  | _ => 0
  end.

(** ** The program, over an arbitrary [numpy.log2] *)

Section Program.

(** [numpy.log2] on positive finite arguments. *)
Variable lg : Q -> Q.

(** [numpy.log2]: the logarithm of zero is -inf (a "divide" floating-point
    error), that of a negative number or of -inf is NaN (an "invalid" one);
    neither raises. *)
Definition np_log2 (x : F64) : F64 :=
  match x with
  | NaN => NaN
  | NegInf => NaN
  | PosInf => PosInf
  | Fin q =>
      match q ?= 0 with
      | Gt => Fin (lg q)
      | Eq => NegInf
      | Lt => NaN
      end
  end.

(** [hz_to_cents]: the array expression [1200 * np.log2(f0 / ref_hz)], frame
    by frame, with both floating-point errors ignored. *)
Definition hz_to_cents (f0 : list F64) (ref_hz : F64) : list F64 :=
  map (fun f => fmul (Fin 1200) (np_log2 (fdiv f ref_hz))) f0.

Definition ref_hz_default : F64 := Fin 440.

(** [align_with_dtw]; its two [times] arguments are never read.  The path is
    returned as the library hands it over. *)
Definition align_with_dtw (f0_1 f0_2 : list F64)
  : result (list (nat * nat) * list (list F64)) :=
  let cents1 := hz_to_cents f0_1 ref_hz_default in
  let cents2 := hz_to_cents f0_2 ref_hz_default in
  let cents1_filled := map (nan_to_num 0) cents1 in
  let cents2_filled := map (nan_to_num 0) cents2 in
  r <- dtw cents1_filled cents2_filled ;;
  Ok (snd r, fst r).

(** [calculate_pitch_diff]: [f0_2[j]] is only read when [f0_1[i]] is not
    NaN. *)
Fixpoint calculate_pitch_diff (f0_1 f0_2 : list F64) (wp : list (nat * nat))
  : result (list F64) :=
  match wp with
  | [] => Ok []
  | (i, j) :: wp' =>
      a <- getitem f0_1 i ;;
      diff <- (if isnan a then Ok NaN
               else b <- getitem f0_2 j ;;
                    if isnan b then Ok NaN
                    else Ok (fmul (Fin 1200) (np_log2 (fdiv b a)))) ;;
      diffs <- calculate_pitch_diff f0_1 f0_2 wp' ;;
      Ok (diff :: diffs)
  end.

End Program.

(** The magnitudes between which a frequency, divided by the reference,
    neither underflows to 0 nor overflows. *)
Definition min_magnitude : Q := 1 # 2 ^ 1000.
Definition max_magnitude : Q := inject_Z (2 ^ 1000).

(** A frame whose cents are missing or an ordinary number: NaN, -inf, a
    negative frequency, or a positive one; not 0 Hz, not +inf, and of a
    magnitude between the two above, where [log2] of the ratio to the
    reference is between -1100 and 1100. *)
Definition regular_frame (lg : Q -> Q) (f : F64) : Prop :=
  match f with
  | PosInf => False
  | Fin q =>
      min_magnitude <= Qabs q /\ Qabs q <= max_magnitude /\
      (0 < q -> Qabs (lg (q / 440)) <= 1100)
  | _ => True
  end.

(** A bound on the magnitude of the cents of a regular frame, and on the
    distance of two of them. *)
Definition cents_limit : Q := 1200 * 1100.

Definition cost_limit : Q := 2 * cents_limit.

(** What [n] costs of at most [K] add up to at most. *)
Definition frames_cost (K : Q) (n : nat) : Q := inject_Z (Z.of_nat n) * K.

(** A number of frames up to which the accumulated costs of regular frames
    stay below the overflow threshold. *)
Definition max_frames : Z := 2 ^ 1000.

(** A cost or an accumulated cost: +inf, or a finite number that is not
    negative. *)
Definition costlike (x : F64) : Prop :=
  match x with
  | PosInf => True
  | Fin q => 0 <= q
  | _ => False
  end.

(** ** [generate_report]

    The report is kept as the values its text is formatted from.  The
    standard deviation and the median are only printed, and are left out.
    The labels stand for the strings of the source: [Sharp] for "偏高",
    [Flat] for "偏低", and the four verdicts for the sentences starting with
    "优秀", "良好", "需要练习" and "需要大量练习". *)

Inductive direction : Type := Sharp | Flat.

Inductive verdict : Type :=
| Excellent
| Good
| NeedsPractice
| NeedsMuchPractice.

Record report : Type := {
  mean_diff : F64;
  mean_label : direction;
  accurate : nat;
  slightly_off : nat;
  seriously_off : nat;
  total : nat;
  accurate_pct : Q;
  slightly_off_pct : Q;
  seriously_off_pct : Q;
  accuracy_rate : Q;
  assessment : verdict;
  trend : option direction
}.

(** What is written to [output_path]: the one-line message of the early
    return, or the full report. *)
Inductive report_file : Type :=
| Message (text : string)
| Analysis (r : report).

Definition no_data_message : string := "无法生成报告：没有有效的音高数据".

Definition newline : string := String (Ascii.ascii_of_nat 10) EmptyString.

(** Number of line ends in a text. *)
Fixpoint line_ends (s : string) : nat :=
  match s with
  | EmptyString => 0%nat
  | String c s' =>
      ((if Ascii.eqb c (Ascii.ascii_of_nat 10) then 1 else 0) + line_ends s')%nat
  end.

(** [diffs[~np.isnan(diffs)]] *)
Definition valid (diffs : list F64) : list F64 :=
  filter (fun d => negb (isnan d)) diffs.

(** [np.sum] of a boolean mask. *)
Definition count (p : F64 -> bool) (l : list F64) : nat :=
  List.length (filter p l).

Definition is_accurate (d : F64) : bool := fltb (fabs d) (Fin 25).

Definition is_slightly_off (d : F64) : bool :=
  fgeb (fabs d) (Fin 25) && fltb (fabs d) (Fin 50).

Definition is_seriously_off (d : F64) : bool := fgeb (fabs d) (Fin 50).

Definition np_mean (l : list F64) : F64 :=
  fdiv (fold_left fadd l (Fin 0)) (Fin (inject_Z (Z.of_nat (List.length l)))).

(** [100*k/total], an integer product divided by an integer. *)
Definition percent (k total : nat) : Q :=
  inject_Z (100 * Z.of_nat k) / inject_Z (Z.of_nat total).

Definition assess (accuracy_rate : Q) : verdict :=
  if Qltb 80 accuracy_rate then Excellent
  else if Qltb 60 accuracy_rate then Good
  else if Qltb 40 accuracy_rate then NeedsPractice
  else NeedsMuchPractice.

Definition overall_trend (mean_diff : F64) : option direction :=
  if fgtb (fabs mean_diff) (Fin 30) then
    if fgtb mean_diff (Fin 0) then Some Sharp else Some Flat
  else None.

(** [generate_report]; of its arguments only [diffs] is read. *)
Definition generate_report (diffs : list F64) : report_file :=
  let valid_diffs := valid diffs in
  if (List.length valid_diffs =? 0)%nat then
    Message (no_data_message ++ newline)
  else
    let mean := np_mean valid_diffs in
    let n_accurate := count is_accurate valid_diffs in
    let n_slightly_off := count is_slightly_off valid_diffs in
    let n_seriously_off := count is_seriously_off valid_diffs in
    let n_total := List.length valid_diffs in
    Analysis {|
      mean_diff := mean;
      mean_label := if fgtb mean (Fin 0) then Sharp else Flat;
      accurate := n_accurate;
      slightly_off := n_slightly_off;
      seriously_off := n_seriously_off;
      total := n_total;
      accurate_pct := percent n_accurate n_total;
      slightly_off_pct := percent n_slightly_off n_total;
      seriously_off_pct := percent n_seriously_off n_total;
      accuracy_rate := percent n_accurate n_total;
      assessment := assess (percent n_accurate n_total);
      trend := overall_trend mean
    |}.

(** ** A computable logarithm, to run the program

    Exact at the powers of two and linear between two of them; it stands for
    [numpy.log2] wherever the program is evaluated on a concrete input. *)

Definition log2_floor (q : Q) : Z :=
  let e := (Z.log2 (Qnum q) - Z.log2 (Zpos (Qden q)))%Z in
  if Qltb q (2 ^ e) then (e - 1)%Z else e.

Definition log2_linear (q : Q) : Q :=
  let e := log2_floor q in
  inject_Z e + (q / 2 ^ e - 1).

(** ** The other functions of the file *)

Definition OverflowError : string := "OverflowError".

(** [x <= y]; false as soon as one side is NaN. *)
Definition fleb (x y : F64) : bool := fgeb y x.

(** Python's [round] to an integer: to the nearest, a tie going to the even
    neighbour. *)
Definition round_half_even (q : Q) : Z :=
  let f := Qfloor q in
  match Qcompare (q - inject_Z f)%Q (1 # 2)%Q with
  | Lt => f
  | Gt => (f + 1)%Z
  | Eq => if Z.even f then f else (f + 1)%Z
  end.

(** [int(round(x))]: NaN raises [ValueError], an infinity [OverflowError]. *)
Definition py_round (x : F64) : result Z :=
  match x with
  | NaN => Raise ValueError
  | NegInf | PosInf => Raise OverflowError
  | Fin q => Ok (round_half_even q)
  end.

(** The decimal text of an integer, as an f-string prints it. *)
Definition string_of_Z (z : Z) : string := NilZero.string_of_int (Z.to_int z).

Definition note_names : list string :=
  ["C"; "C#"; "D"; "D#"; "E"; "F"; "F#"; "G"; "G#"; "A"; "A#"; "B"]%string.

(** [setup_chinese_font]: the font families tried, in this order. *)
Definition chinese_fonts : list string :=
  ["WenQuanYi Micro Hei"; "WenQuanYi Zen Hei"; "Noto Sans CJK SC";
   "Noto Sans SC"; "SimHei"; "Microsoft YaHei"; "PingFang SC";
   "Hiragino Sans GB"]%string.

(** The two entries of [matplotlib.rcParams] that the function writes. *)
Record rc_params : Type := {
  font_sans_serif : list string;
  axes_unicode_minus : bool
}.

(** [font in available_fonts] *)
Definition font_in (font : string) (available_fonts : list string) : bool :=
  existsb (String.eqb font) available_fonts.

(** The [for font in chinese_fonts] loop; the returned flag is the value
    returned by the function, the record is [rcParams] when it returns. *)
Fixpoint setup_font_loop (fonts available_fonts : list string)
  (rc : rc_params) : rc_params * bool :=
  match fonts with
  | [] => (rc, false)
  | font :: rest =>
      if font_in font available_fonts then
        ({| font_sans_serif := [font; "DejaVu Sans"%string];
            axes_unicode_minus := false |}, true)
      else setup_font_loop rest available_fonts rc
  end.

Definition setup_chinese_font (available_fonts : list string)
  (rc : rc_params) : rc_params * bool :=
  setup_font_loop chinese_fonts available_fonts rc.

(** Indexing an array by an array of indices, [a[idx]]. *)
Fixpoint take {A : Type} (a : list A) (idx : list nat) : result (list A) :=
  match idx with
  | [] => Ok []
  | i :: idx' =>
      x <- getitem a i ;;
      xs <- take a idx' ;;
      Ok (x :: xs)
  end.

(** [a[-1]] *)
Definition last_item {A : Type} (a : list A) : result A :=
  getitem a (List.length a - 1).

(** Python's [max] of two floats: the second only when it compares
    greater. *)
Definition py_max (a b : F64) : F64 := if fgtb b a then b else a.

(** The colour of one point of the deviation plot. *)
Definition point_color (d : F64) : string :=
  if isnan d then "gray"%string
  else if fltb (fabs d) (Fin 25) then "green"%string
  else if fltb (fabs d) (Fin 50) then "orange"%string
  else "red"%string.

(** [plot_rhythm_analysis]: the values handed to the drawing calls. *)
Record rhythm_plot : Type := {
  path_times1 : list F64;
  path_times2 : list F64;
  max_time : F64
}.

Definition plot_rhythm_analysis (times1 times2 : list F64)
  (wp : list (nat * nat)) : result rhythm_plot :=
  pt1 <- take times1 (map fst wp) ;;
  pt2 <- take times2 (map snd wp) ;;
  t1 <- last_item times1 ;;
  t2 <- last_item times2 ;;
  Ok {| path_times1 := pt1; path_times2 := pt2; max_time := py_max t1 t2 |}.

(** [plot_pitch_comparison]: the values handed to the drawing calls; the
    function returns [plot_diffs]. *)
Record pitch_plot : Type := {
  aligned_times : list F64;
  aligned_f0_1 : list F64;
  aligned_f0_2 : list F64;
  plot_diffs : list F64;
  colors : list string
}.

Section Program_plots.

Variable lg : Q -> Q.

(** [hz_to_note_name] *)
Definition hz_to_note_name (hz : F64) : result string :=
  if isnan hz || fleb hz (Fin 0) then Ok ""%string
  else
    let note_num :=
      fadd (fmul (Fin 12) (np_log2 lg (fdiv hz (Fin 440)))) (Fin 69) in
    n <- py_round note_num ;;
    let note_idx := (n mod 12)%Z in
    let octave := (n / 12 - 1)%Z in
    name <- getitem note_names (Z.to_nat note_idx) ;;
    Ok (name ++ string_of_Z octave)%string.

Definition plot_pitch_comparison (times1 f0_1 times2 f0_2 : list F64)
  (wp : list (nat * nat)) : result pitch_plot :=
  at_ <- take times1 (map fst wp) ;;
  a1 <- take f0_1 (map fst wp) ;;
  a2 <- take f0_2 (map snd wp) ;;
  diffs <- calculate_pitch_diff lg f0_1 f0_2 wp ;;
  Ok {| aligned_times := at_; aligned_f0_1 := a1; aligned_f0_2 := a2;
        plot_diffs := diffs; colors := map point_color diffs |}.

(** [main] from the two extracted curves on: alignment, the two plots that
    read the path, and the report (the spectrogram plot reads none of these
    values). *)
Definition main_analysis (times1 f0_1 times2 f0_2 : list F64)
  : result report_file :=
  r <- align_with_dtw lg f0_1 f0_2 ;;
  p <- plot_pitch_comparison times1 f0_1 times2 f0_2 (fst r) ;;
  _ <- plot_rhythm_analysis times1 times2 (fst r) ;;
  Ok (generate_report (plot_diffs p)).

End Program_plots.

(** The sum of the local costs along a path. *)
Definition path_cost (C : list (list F64)) (wp : list (nat * nat)) : F64 :=
  fold_right (fun p acc => fadd (cost_at C (fst p) (snd p)) acc) (Fin 0) wp.

(** ** Tactics for concrete curves *)

(** Regularity of the frames of a concrete curve, by evaluation. *)
Ltac regular_frames :=
  repeat (apply Forall_cons || apply Forall_nil);
  first
    [ exact I
    | split; [|split; [|intros _]]; vm_compute; discriminate ].

(** The bound on the number of frames of two concrete curves. *)
Ltac frames_room := vm_compute; discriminate.

(** * Properties *)

(** ** Comparisons *)

Lemma Qltb_true (a b : Q) : Qltb a b = true <-> a < b.
Proof.
  unfold Qltb. rewrite Qlt_alt.
  destruct (a ?= b); split; congruence.
Qed.

Lemma Qltb_false (a b : Q) : Qltb a b = false <-> b <= a.
Proof.
  split; intro H.
  - apply Qnot_lt_le. intro L. apply Qltb_true in L. congruence.
  - destruct (Qltb a b) eqn:E; trivial.
    apply Qltb_true in E. exfalso. exact (Qlt_not_le _ _ E H).
Qed.

Lemma Qcompare_Gt (a b : Q) : b < a -> (a ?= b) = Gt.
Proof. intro H. now apply Qgt_alt. Qed.



(** ** The cents conversion *)

Section Cents.

Variable lg : Q -> Q.






End Cents.



(** ** The deviation series *)

Section Deviation.

Variable lg : Q -> Q.

(** One turn of the loop of [calculate_pitch_diff], both frames read. *)
Lemma calculate_pitch_diff_cons (f0_1 f0_2 : list F64) (i j : nat)
  (a b : F64) (wp : list (nat * nat)) :
  nth_error f0_1 i = Some a -> nth_error f0_2 j = Some b ->
  calculate_pitch_diff lg f0_1 f0_2 ((i, j) :: wp)
  = (diffs <- calculate_pitch_diff lg f0_1 f0_2 wp ;;
     Ok ((if isnan a || isnan b then NaN
          else fmul (Fin 1200) (np_log2 lg (fdiv b a))) :: diffs)).
Proof.
  intros Ea Eb. simpl. unfold getitem. rewrite Ea. simpl.
  destruct (isnan a); simpl; [reflexivity|].
  rewrite Eb. simpl. destruct (isnan b); reflexivity.
Qed.

(** The deviation series of a curve against itself over diagonal pairs. *)
Lemma calculate_pitch_diff_diagonal (f0 : list F64) (ks : list nat) :
  (forall k, In k ks -> (k < List.length f0)%nat) ->
  calculate_pitch_diff lg f0 f0 (map (fun k => (k, k)) ks)
  = Ok (map (fun k =>
              let a := nth k f0 NaN in
              if isnan a then NaN
              else fmul (Fin 1200) (np_log2 lg (fdiv a a))) ks).
Proof.
  induction ks as [|k ks IH]; intro H; [reflexivity|].
  assert (Ek : nth_error f0 k = Some (nth k f0 NaN)).
  { apply nth_error_nth'. apply H. now left. }
  simpl map. rewrite (calculate_pitch_diff_cons _ _ _ _ _ _ _ Ek Ek).
  rewrite IH by (intros k' Hk'; apply H; now right).
  simpl. now rewrite orb_diag.
Qed.

(** C3.  Over a path whose indices lie inside the two curves,
    [calculate_pitch_diff] returns one entry per path pair, in path order:
    NaN when either frequency of the pair is NaN, and otherwise
    [1200 * log2 (f0_2[j] / f0_1[i])] computed from the two raw
    frequencies. *)
Theorem calculate_pitch_diff_entries (f0_1 f0_2 : list F64)
  (wp : list (nat * nat)) :
  (forall i j, In (i, j) wp ->
     (i < List.length f0_1)%nat /\ (j < List.length f0_2)%nat) ->
  exists diffs,
    calculate_pitch_diff lg f0_1 f0_2 wp = Ok diffs /\
    List.length diffs = List.length wp /\
    forall k i j, nth_error wp k = Some (i, j) ->
      exists a b,
        nth_error f0_1 i = Some a /\
        nth_error f0_2 j = Some b /\
        nth_error diffs k =
          Some (if isnan a || isnan b then NaN
                else fmul (Fin 1200) (np_log2 lg (fdiv b a))).
Proof.
  induction wp as [|[i j] wp IH]; intro Hin.
  - exists []. repeat split. intros [|k] i j H; discriminate.
  - destruct IH as (ds & E & L & Hn).
    { intros i' j' H. apply Hin. now right. }
    destruct (Hin i j (or_introl eq_refl)) as [Hi Hj].
    destruct (nth_error f0_1 i) as [a|] eqn:Ea;
      [|apply nth_error_None in Ea; lia].
    destruct (nth_error f0_2 j) as [b|] eqn:Eb;
      [|apply nth_error_None in Eb; lia].
    rewrite (calculate_pitch_diff_cons _ _ _ _ _ _ _ Ea Eb), E.
    eexists. split; [reflexivity|]. split.
    + simpl. now rewrite L.
    + intros [|k] i' j' H; simpl in H.
      * injection H as <- <-. exists a, b. repeat split; assumption.
      * apply Hn in H. exact H.
Qed.

End Deviation.

Lemma calculate_pitch_diff_entries_witness :
  exists diffs,
    calculate_pitch_diff log2_linear [Fin 440; NaN] [Fin 880; Fin 440]
      [(1, 1); (0, 0)]%nat = Ok diffs /\
    List.length diffs = 2%nat.
Proof.
  destruct (calculate_pitch_diff_entries log2_linear
              [Fin 440; NaN] [Fin 880; Fin 440] [(1, 1); (0, 0)]%nat)
    as (diffs & E & L & _).
  - intros i j [H|[H|[]]]; injection H as <- <-; simpl; lia.
  - exists diffs. split; assumption.
Defined.

(** ** The report *)

Lemma valid_not_nan (diffs : list F64) (d : F64) :
  In d (valid diffs) <-> In d diffs /\ isnan d = false.
Proof.
  unfold valid. rewrite filter_In.
  destruct (isnan d); simpl; intuition congruence.
Qed.

Lemma valid_all_nan (diffs : list F64) :
  (forall d, In d diffs -> isnan d = true) -> valid diffs = [].
Proof.
  intro H. destruct (valid diffs) as [|d l] eqn:E; trivial.
  assert (Hd : In d (valid diffs)) by (rewrite E; now left).
  apply valid_not_nan in Hd. destruct Hd as [Hd Hn].
  rewrite (H d Hd) in Hn. discriminate.
Qed.

Lemma valid_some (diffs : list F64) :
  (exists d, In d diffs /\ isnan d = false) ->
  (List.length (valid diffs) =? 0)%nat = false.
Proof.
  intros (d & Hd & Hn).
  assert (H : In d (valid diffs)) by now apply valid_not_nan.
  destruct (valid diffs); [destruct H|reflexivity].
Qed.

(** C7.  When every entry of the deviation series is NaN (or the series is
    empty), [generate_report] takes the early return: it computes no
    statistic, raises nothing, and writes the one-line message that no
    valid pitch data is available. *)
Theorem generate_report_no_data (diffs : list F64) :
  (forall d, In d diffs -> isnan d = true) ->
  generate_report diffs = Message (no_data_message ++ newline) /\
  line_ends (no_data_message ++ newline) = 1%nat.
Proof.
  intro H. split; [|reflexivity].
  unfold generate_report. rewrite (valid_all_nan diffs H). reflexivity.
Qed.

Lemma generate_report_no_data_witness :
  generate_report [NaN; NaN; NaN] = Message (no_data_message ++ newline) /\
  line_ends (no_data_message ++ newline) = 1%nat.
Proof.
  apply generate_report_no_data.
  intros d [<-|[<-|[<-|[]]]]; reflexivity.
Defined.

(** The three tiers, read on a finite deviation. *)
Lemma tiers_finite (q : Q) :
  (is_accurate (Fin q) = true <-> Qabs q < 25) /\
  (is_slightly_off (Fin q) = true <-> 25 <= Qabs q /\ Qabs q < 50) /\
  (is_seriously_off (Fin q) = true <-> 50 <= Qabs q).
Proof.
  unfold is_accurate, is_slightly_off, is_seriously_off. simpl.
  rewrite andb_true_iff, !Qltb_true, !Qle_bool_iff. tauto.
Qed.

(** An infinite deviation is seriously off. *)
Lemma tiers_infinite (d : F64) :
  d = PosInf \/ d = NegInf ->
  is_accurate d = false /\ is_slightly_off d = false /\
  is_seriously_off d = true.
Proof. intros [-> | ->]; repeat split. Qed.

(** Every deviation that is not NaN falls in exactly one tier. *)
Lemma tiers_exclusive (d : F64) :
  isnan d = false ->
  (Nat.b2n (is_accurate d) + Nat.b2n (is_slightly_off d)
   + Nat.b2n (is_seriously_off d) = 1)%nat.
Proof.
  destruct d as [| | |q]; try discriminate; try reflexivity.
  intros _.
  destruct (tiers_finite q) as (Ha & Hs & Hr).
  destruct (is_accurate (Fin q)), (is_slightly_off (Fin q)),
    (is_seriously_off (Fin q)); try reflexivity; exfalso;
    repeat match goal with
           | H : true = true <-> _ |- _ =>
               let K := fresh in
               assert (K := proj1 H eq_refl); clear H
           | H : false = true <-> _ |- _ =>
               let K := fresh in
               assert (K := fun p => diff_false_true (proj2 H p)); clear H
           end;
    try (destruct (Qlt_le_dec (Qabs q) 25); destruct (Qlt_le_dec (Qabs q) 50);
         intuition lra).
Qed.

Lemma count_cons (p : F64 -> bool) (d : F64) (l : list F64) :
  count p (d :: l) = (Nat.b2n (p d) + count p l)%nat.
Proof. unfold count. simpl. destruct (p d); reflexivity. Qed.

Lemma tiers_partition (l : list F64) :
  (forall d, In d l -> isnan d = false) ->
  (count is_accurate l + count is_slightly_off l + count is_seriously_off l
   = List.length l)%nat.
Proof.
  induction l as [|d l IH]; intro H; [reflexivity|].
  rewrite !count_cons. simpl List.length.
  assert (E := tiers_exclusive d (H d (or_introl eq_refl))).
  assert (IH' := IH (fun x Hx => H x (or_intror Hx))).
  lia.
Qed.

Lemma percent_sum (a s r t : nat) :
  (a + s + r = t)%nat -> (0 < t)%nat ->
  percent a t + percent s t + percent r t == 100.
Proof.
  intros E Ht. unfold percent.
  assert (T : ~ inject_Z (Z.of_nat t) == 0).
  { intro K. unfold Qeq in K. simpl in K. lia. }
  assert (S : inject_Z (Z.of_nat t)
              == inject_Z (Z.of_nat a) + inject_Z (Z.of_nat s)
                 + inject_Z (Z.of_nat r)).
  { rewrite <- !inject_Z_plus, <- !Nat2Z.inj_add, E. reflexivity. }
  rewrite !inject_Z_mult.
  set (A := inject_Z (Z.of_nat a)) in *.
  set (B := inject_Z (Z.of_nat s)) in *.
  set (R := inject_Z (Z.of_nat r)) in *.
  set (D := inject_Z (Z.of_nat t)) in *.
  transitivity (inject_Z 100 * (A + B + R) / D); [field; exact T|].
  rewrite <- S. field. exact T.
Qed.

(** The report of a series with a valid entry, field by field. *)
Lemma generate_report_analysis (diffs : list F64) :
  (exists d, In d diffs /\ isnan d = false) ->
  exists r,
    generate_report diffs = Analysis r /\
    mean_diff r = np_mean (valid diffs) /\
    mean_label r = (if fgtb (mean_diff r) (Fin 0) then Sharp else Flat) /\
    accurate r = count is_accurate (valid diffs) /\
    slightly_off r = count is_slightly_off (valid diffs) /\
    seriously_off r = count is_seriously_off (valid diffs) /\
    total r = List.length (valid diffs) /\
    accurate_pct r = percent (accurate r) (total r) /\
    slightly_off_pct r = percent (slightly_off r) (total r) /\
    seriously_off_pct r = percent (seriously_off r) (total r) /\
    accuracy_rate r = percent (accurate r) (total r) /\
    assessment r = assess (accuracy_rate r) /\
    trend r = overall_trend (mean_diff r).
Proof.
  intro H. unfold generate_report. rewrite (valid_some diffs H).
  eexists. split; [reflexivity|]. simpl. repeat split.
Qed.

(** C5.  For a deviation series with at least one entry that is not NaN, the
    three tier counts of the report are taken over the entries that are not
    NaN, with [|d| < 25] accurate, [25 <= |d| < 50] slightly off and
    [|d| >= 50] seriously off; every such entry is in exactly one tier, the
    counts add up to the total, and the three percentages add up to 100. *)
Theorem classifier_totals (diffs : list F64) :
  (exists d, In d diffs /\ isnan d = false) ->
  exists r,
    generate_report diffs = Analysis r /\
    total r = List.length (valid diffs) /\
    accurate r = count is_accurate (valid diffs) /\
    slightly_off r = count is_slightly_off (valid diffs) /\
    seriously_off r = count is_seriously_off (valid diffs) /\
    (forall q,
       (is_accurate (Fin q) = true <-> Qabs q < 25) /\
       (is_slightly_off (Fin q) = true <-> 25 <= Qabs q /\ Qabs q < 50) /\
       (is_seriously_off (Fin q) = true <-> 50 <= Qabs q)) /\
    (forall d, In d (valid diffs) ->
       (Nat.b2n (is_accurate d) + Nat.b2n (is_slightly_off d)
        + Nat.b2n (is_seriously_off d) = 1)%nat) /\
    (accurate r + slightly_off r + seriously_off r = total r)%nat /\
    accurate_pct r + slightly_off_pct r + seriously_off_pct r == 100.
Proof.
  intro H.
  destruct (generate_report_analysis diffs H)
    as (r & E & _ & _ & Ha & Hs & Hr & Ht & Pa & Ps & Pr & _).
  assert (Hv : forall d, In d (valid diffs) -> isnan d = false).
  { intros d Hd. now apply valid_not_nan in Hd. }
  assert (Sum : (accurate r + slightly_off r + seriously_off r = total r)%nat).
  { rewrite Ha, Hs, Hr, Ht. now apply tiers_partition. }
  exists r.
  split; [exact E|]. split; [exact Ht|]. split; [exact Ha|].
  split; [exact Hs|]. split; [exact Hr|].
  split; [exact tiers_finite|].
  split; [intros d Hd; apply tiers_exclusive; now apply Hv|].
  split; [exact Sum|].
  rewrite Pa, Ps, Pr. apply percent_sum; [exact Sum|].
  rewrite Ht. apply valid_some in H.
  apply Nat.eqb_neq in H. lia.
Qed.

Lemma classifier_totals_witness :
  exists r,
    generate_report [Fin 3; NaN; Fin (-30); Fin 120; Fin 10] = Analysis r /\
    (accurate r + slightly_off r + seriously_off r = total r)%nat.
Proof.
  destruct (classifier_totals [Fin 3; NaN; Fin (-30); Fin 120; Fin 10])
    as (r & E & _ & _ & _ & _ & _ & _ & S & _).
  - exists (Fin 3). split; [now left | reflexivity].
  - exists r. split; assumption.
Defined.

(** The verdict bands. *)
Lemma assess_bands (p : Q) :
  (assess p = Excellent <-> 80 < p) /\
  (assess p = Good <-> 60 < p /\ p <= 80) /\
  (assess p = NeedsPractice <-> 40 < p /\ p <= 60) /\
  (assess p = NeedsMuchPractice <-> p <= 40).
Proof.
  unfold assess.
  destruct (Qltb 80 p) eqn:E80; [apply Qltb_true in E80|apply Qltb_false in E80];
  (destruct (Qltb 60 p) eqn:E60;
     [apply Qltb_true in E60|apply Qltb_false in E60]);
  (destruct (Qltb 40 p) eqn:E40;
     [apply Qltb_true in E40|apply Qltb_false in E40]);
  repeat split; intros; try discriminate; try reflexivity; try lra;
  exfalso; intuition lra.
Qed.




(** C10.  For a deviation series with at least one entry that is not NaN,
    the label printed next to the mean deviation is the sharp one exactly
    when the mean is strictly greater than 0; a mean of exactly 0 gets the
    flat label. *)
Theorem mean_label_sharp_iff (diffs : list F64) :
  (exists d, In d diffs /\ isnan d = false) ->
  exists r,
    generate_report diffs = Analysis r /\
    mean_diff r = np_mean (valid diffs) /\
    (mean_label r = Sharp <-> fgtb (mean_diff r) (Fin 0) = true) /\
    (forall q, mean_diff r = Fin q -> (mean_label r = Sharp <-> 0 < q)) /\
    (forall q, mean_diff r = Fin q -> q == 0 -> mean_label r = Flat).
Proof.
  intro H.
  destruct (generate_report_analysis diffs H) as (r & E & Hm & Hl & _).
  exists r. split; [exact E|]. split; [exact Hm|].
  rewrite Hl.
  split; [|split].
  - destruct (fgtb (mean_diff r) (Fin 0)); split; intro; congruence.
  - intros q ->. unfold fgtb. simpl.
    destruct (Qltb 0 q) eqn:Eq0.
    + apply Qltb_true in Eq0. tauto.
    + apply Qltb_false in Eq0. split; [discriminate|]. intro. lra.
  - intros q -> Hq. unfold fgtb. simpl.
    assert (Qltb 0 q = false) by (apply Qltb_false; lra).
    now rewrite H0.
Qed.

Lemma mean_label_sharp_iff_witness :
  exists r,
    generate_report [Fin 12; Fin (-12); NaN] = Analysis r /\
    mean_label r = Flat.
Proof.
  destruct (mean_label_sharp_iff [Fin 12; Fin (-12); NaN])
    as (r & E & Hm & _ & _ & Hz).
  - exists (Fin 12). split; [now left | reflexivity].
  - exists r. split; [exact E|].
    apply (Hz (0 # 2)); [rewrite Hm|]; reflexivity.
Defined.

(** ** The accumulated-cost matrix *)

Lemma accu_row_length (crow : list F64) :
  forall prev left init,
    (S (List.length crow) <= List.length prev)%nat ->
    List.length (accu_row crow prev left init) = List.length crow.
Proof.
  induction crow as [|c crow IH]; intros prev left init H; [reflexivity|].
  destruct prev as [|diag [|up prev']]; simpl in H; try lia.
  simpl. f_equal. apply IH. simpl. lia.
Qed.

Lemma accu_row_nth (crow : list F64) :
  forall prev left init j c,
    nth_error crow j = Some c ->
    (S (List.length crow) <= List.length prev)%nat ->
    nth j (accu_row crow prev left init) (PosInf, 0%nat)
    = accu_cell c (nth j prev PosInf)
        (match j with
         | O => left
         | S j' => fst (nth j' (accu_row crow prev left init) (PosInf, 0%nat))
         end)
        (nth (S j) prev PosInf)
        (match j with O => init | S _ => (PosInf, 0%nat) end).
Proof.
  induction crow as [|c0 crow IH]; intros prev left init j c Hj Hl.
  - destruct j; discriminate.
  - destruct prev as [|diag [|up prev']]; simpl in Hl; try lia.
    destruct j as [|j]; simpl in Hj.
    + injection Hj as <-. reflexivity.
    + change (accu_row (c0 :: crow) (diag :: up :: prev') left init)
        with (accu_cell c0 diag left up init
              :: accu_row crow (up :: prev')
                   (fst (accu_cell c0 diag left up init)) (PosInf, 0%nat)).
      set (cell := accu_cell c0 diag left up init).
      change (nth (S j) (cell :: ?l) ?d) with (nth j l d).
      rewrite (IH (up :: prev') (fst cell) (PosInf, 0%nat) j c Hj)
        by (simpl; lia).
      destruct j; reflexivity.
Qed.

Lemma nth_map_fst (l : list (F64 * nat)) (k : nat) :
  nth k (map fst l) PosInf = fst (nth k l (PosInf, 0%nat)).
Proof. exact (map_nth fst l (PosInf, 0%nat) k). Qed.

Lemma accu_cost_length (C : list (list F64)) :
  forall prev init, List.length (accu_cost C prev init) = List.length C.
Proof.
  induction C as [|crow C IH]; intros; simpl; [reflexivity|].
  now rewrite IH.
Qed.

Lemma accu_cost_row_length (M : nat) (C : list (list F64)) :
  Forall (fun r => List.length r = M) C ->
  forall prev init i,
    List.length prev = S M ->
    (i < List.length C)%nat ->
    List.length (nth i (accu_cost C prev init) []) = M.
Proof.
  induction 1 as [|crow C Hr HC IH]; intros prev init i Hp Hi;
    simpl in Hi; [lia|].
  assert (L : List.length (accu_row crow prev PosInf init) = M).
  { rewrite accu_row_length; [exact Hr | lia]. }
  destruct i as [|i]; simpl; [exact L|].
  apply IH; [|lia]. simpl. now rewrite length_map, L.
Qed.

Lemma accu_cost_nth (C : list (list F64)) :
  forall prev init i crow,
    nth_error C i = Some crow ->
    nth i (accu_cost C prev init) []
    = accu_row crow
        (match i with
         | O => prev
         | S i' => PosInf :: map fst (nth i' (accu_cost C prev init) [])
         end)
        PosInf
        (match i with O => init | S _ => (PosInf, 0%nat) end).
Proof.
  induction C as [|c0 C IH]; intros prev init i crow Hi.
  - destruct i; discriminate.
  - destruct i as [|i]; simpl in Hi.
    + injection Hi as <-. reflexivity.
    + simpl accu_cost.
      set (cells := accu_row c0 prev PosInf init).
      change (nth (S i) (cells :: ?l) ?d) with (nth i l d).
      rewrite (IH (PosInf :: map fst cells) (PosInf, 0%nat) i crow Hi).
      destruct i; reflexivity.
Qed.

Section Accumulate.

Variable C : list (list F64).
Variable M : nat.
Variable c00 : F64.

Hypothesis C_rows : Forall (fun r => List.length r = M) C.

Let cells := accu_cost C (repeat PosInf (S M)) (c00, 0%nat).

(** The recurrence of the accumulation, cell by cell. *)
Lemma cells_recurrence (i j : nat) :
  (i < List.length C)%nat -> (j < M)%nat ->
  cell_at cells i j
  = accu_cell (cost_at C i j)
      (padded_at cells i j) (padded_at cells (S i) j)
      (padded_at cells i (S j))
      (match i, j with
       | O, O => (c00, 0%nat)
       | _, _ => (PosInf, 0%nat)
       end).
Proof.
  intros Hi Hj.
  assert (Ei : nth_error C i = Some (nth i C [])) by now apply nth_error_nth'.
  assert (Lr : List.length (nth i C []) = M).
  { rewrite Forall_forall in C_rows. apply C_rows. now apply nth_In. }
  assert (Ej : nth_error (nth i C []) j = Some (cost_at C i j)).
  { unfold cost_at. apply nth_error_nth'. lia. }
  unfold cell_at at 1. unfold cells at 1.
  rewrite (accu_cost_nth C _ _ i _ Ei).
  rewrite (accu_row_nth _ _ _ _ j _ Ej).
  - rewrite <- (accu_cost_nth C _ _ i _ Ei). fold cells.
    destruct i as [|i].
    + assert (R : forall k, nth k (repeat PosInf (S M)) PosInf = PosInf).
      { intro k. destruct (Nat.lt_ge_cases k (S M)) as [L|L].
        - apply nth_repeat_lt. exact L.
        - apply nth_overflow. now rewrite repeat_length. }
      rewrite !R. destruct j; reflexivity.
    + unfold padded_at, cell_at.
      destruct j as [|j]; simpl nth; rewrite ?nth_map_fst; reflexivity.
  - rewrite Lr. destruct i as [|i].
    + rewrite repeat_length. lia.
    + simpl. rewrite length_map.
      unfold cells in *.
      rewrite (accu_cost_row_length M C C_rows);
        [lia | exact (repeat_length PosInf (S M)) | lia].
Qed.

End Accumulate.

(** ** Overflow *)

Lemma overflow_threshold_pos : 0 < overflow_threshold.
Proof. vm_compute. reflexivity. Qed.

(** Below the threshold nothing overflows. *)
Lemma overflow_fin (q : Q) :
  - overflow_threshold < q -> q < overflow_threshold ->
  overflow (Fin q) = Fin q.
Proof.
  intros H1 H2. unfold overflow.
  destruct (Qle_bool overflow_threshold q) eqn:E1.
  - apply Qle_bool_iff in E1. lra.
  - destruct (Qle_bool q (- overflow_threshold)) eqn:E2; [|reflexivity].
    apply Qle_bool_iff in E2. lra.
Qed.

Lemma overflow_costlike (x : F64) : costlike x -> costlike (overflow x).
Proof.
  destruct x as [| | |q]; simpl; auto. intro H.
  destruct (Qle_bool overflow_threshold q); [exact I|].
  destruct (Qle_bool q (- overflow_threshold)) eqn:E; [|exact H].
  apply Qle_bool_iff in E. assert (P := overflow_threshold_pos). simpl. lra.
Qed.

Lemma fadd_costlike (x y : F64) :
  costlike x -> costlike y -> costlike (fadd x y).
Proof.
  destruct x as [| | |a], y as [| | |b]; simpl; auto. intros. lra.
Qed.

Lemma costlike_no_nan (x : F64) : costlike x -> isnan x = false.
Proof. destruct x; simpl; tauto. Qed.

(** A cost is never below a cost of zero. *)
Lemma fltb_costlike (x : F64) (q : Q) :
  costlike x -> q <= 0 -> fltb x (Fin q) = false.
Proof.
  destruct x as [| | |a]; simpl; try tauto. intros Ha Hq.
  apply Qltb_false. lra.
Qed.

(** ** One cell of the accumulated-cost matrix *)

Lemma try_step_inf (c : Q) (cell : F64 * nat) (k : nat) :
  try_step (Fin c) cell k PosInf = cell.
Proof. unfold try_step. simpl. destruct (fst cell); reflexivity. Qed.

Lemma try_step_fin (c cur : Q) (cell : F64 * nat) (k : nat) :
  - overflow_threshold < cur + c -> cur + c < overflow_threshold ->
  try_step (Fin c) cell k (Fin cur)
  = if fltb (Fin (cur + c)) (fst cell) then (Fin (cur + c), k) else cell.
Proof.
  intros H1 H2. unfold try_step. simpl fadd.
  now rewrite overflow_fin.
Qed.

Lemma try_step_costlike (c cur : F64) (cell : F64 * nat) (k : nat) :
  costlike c -> costlike cur -> costlike (fst cell) ->
  costlike (fst (try_step c cell k cur)).
Proof.
  intros Hc Hu Hl. unfold try_step.
  destruct (fltb _ _); [|exact Hl].
  simpl. apply overflow_costlike. now apply fadd_costlike.
Qed.

Lemma accu_cell_costlike (c diag left up : F64) (init : F64 * nat) :
  costlike c -> costlike diag -> costlike left -> costlike up ->
  costlike (fst init) ->
  costlike (fst (accu_cell c diag left up init)).
Proof.
  intros. unfold accu_cell. repeat apply try_step_costlike; assumption.
Qed.

(** What one cell becomes, by the position of its finite neighbours. *)

Lemma accu_cell_origin (c : Q) (c00 : F64) :
  accu_cell (Fin c) PosInf PosInf PosInf (c00, 0%nat) = (c00, 0%nat).
Proof. unfold accu_cell. now rewrite !try_step_inf. Qed.

Lemma accu_cell_first_row (c l : Q) :
  0 <= l + c -> l + c < overflow_threshold ->
  accu_cell (Fin c) PosInf (Fin l) PosInf (PosInf, 0%nat)
  = (Fin (l + c), 1%nat).
Proof.
  intros H1 H2. assert (P := overflow_threshold_pos).
  unfold accu_cell. rewrite !try_step_inf.
  rewrite try_step_fin by lra. reflexivity.
Qed.

Lemma accu_cell_first_column (c u : Q) :
  0 <= u + c -> u + c < overflow_threshold ->
  accu_cell (Fin c) PosInf PosInf (Fin u) (PosInf, 0%nat)
  = (Fin (u + c), 2%nat).
Proof.
  intros H1 H2. assert (P := overflow_threshold_pos).
  unfold accu_cell. rewrite !try_step_inf.
  rewrite try_step_fin by lra. reflexivity.
Qed.

(** Away from the borders the cell holds the least of the three sums, and the
    first step that gives it. *)
Lemma accu_cell_inner (c d l u : Q) :
  0 <= c -> 0 <= d -> 0 <= l -> 0 <= u ->
  d + c < overflow_threshold -> l + c < overflow_threshold ->
  u + c < overflow_threshold ->
  exists v k,
    accu_cell (Fin c) (Fin d) (Fin l) (Fin u) (PosInf, 0%nat) = (Fin v, k) /\
    (k <= 2)%nat /\ 0 <= v /\
    v <= d + c /\ v <= l + c /\ v <= u + c /\
    ((k = 0%nat /\ v = d + c) \/ (k = 1%nat /\ v = l + c)
     \/ (k = 2%nat /\ v = u + c)).
Proof.
  intros Hc Hd Hl Hu Td Tl Tu. assert (P := overflow_threshold_pos).
  unfold accu_cell. rewrite !try_step_fin by lra. simpl.
  destruct (Qltb (l + c) (d + c)) eqn:E1; simpl;
    [apply Qltb_true in E1 | apply Qltb_false in E1];
    (destruct (Qltb (u + c) _) eqn:E2; simpl;
       [apply Qltb_true in E2 | apply Qltb_false in E2]);
    eexists; eexists; (split; [reflexivity|]);
    (split; [lia|]); repeat split; try lra; tauto.
Qed.

(** With a zero cost and a zero diagonal neighbour the diagonal step, tried
    first, is never displaced, whatever the two other neighbours hold. *)
Lemma accu_cell_diagonal (c d : Q) (l u : F64) :
  c == 0 -> d == 0 -> costlike l -> costlike u ->
  accu_cell (Fin c) (Fin d) l u (PosInf, 0%nat) = (Fin (d + c), 0%nat).
Proof.
  intros Hc Hd Hl Hu. assert (P := overflow_threshold_pos).
  unfold accu_cell. rewrite try_step_fin by lra. simpl fltb. cbv iota.
  assert (K : forall x k, costlike x ->
            try_step (Fin c) (Fin (d + c), 0%nat) k x = (Fin (d + c), 0%nat)).
  { intros x k Hx. unfold try_step. simpl fst.
    rewrite fltb_costlike; [reflexivity | | lra].
    apply overflow_costlike. apply fadd_costlike; [exact Hx|]. simpl. lra. }
  now rewrite !K.
Qed.

Lemma frames_cost_succ (K : Q) (n : nat) :
  frames_cost K (S n) == frames_cost K n + K.
Proof.
  unfold frames_cost. rewrite Nat2Z.inj_succ. unfold Z.succ.
  rewrite inject_Z_plus. ring.
Qed.

Lemma frames_cost_le (K : Q) (n m : nat) :
  0 <= K -> (n <= m)%nat -> frames_cost K n <= frames_cost K m.
Proof.
  intros HK H. unfold frames_cost. apply Qmult_le_compat_r; [|exact HK].
  rewrite <- Zle_Qle. lia.
Qed.

Section Costlike_costs.

Variable C : list (list F64).
Variable M : nat.
Variable c00 : F64.

Hypothesis C_rows : Forall (fun r => List.length r = M) C.

Hypothesis C_costlike :
  forall i j, (i < List.length C)%nat -> (j < M)%nat ->
    costlike (cost_at C i j).

Hypothesis c00_origin : c00 = cost_at C 0 0.

Let cells := accu_cost C (repeat PosInf (S M)) (c00, 0%nat).

(** Whatever overflows, an accumulated cost is +inf or a finite number that
    is not negative. *)
Lemma cells_costlike (i : nat) :
  forall j, (i < List.length C)%nat -> (j < M)%nat ->
    costlike (fst (cell_at cells i j)).
Proof.
  induction i as [|i IHi]; induction j as [|j IHj]; intros Hi Hj;
    unfold cells; rewrite (cells_recurrence C M c00 C_rows) by assumption;
    fold cells; apply accu_cell_costlike;
    try (apply C_costlike; assumption); simpl padded_at; try exact I.
  - rewrite c00_origin. now apply C_costlike.
  - apply IHj; [exact Hi | lia].
  - apply IHi; [lia | exact Hj].
  - apply IHi; lia.
  - apply IHj; [exact Hi | lia].
  - apply IHi; [lia | exact Hj].
Qed.

(** On the diagonal of a cost matrix whose diagonal is zero, the accumulated
    cost is zero and the recorded step is the diagonal one. *)
Lemma cells_diagonal :
  (forall k, (k < List.length C)%nat -> (k < M)%nat ->
     exists q, cost_at C k k = Fin q /\ q == 0) ->
  forall k, (k < List.length C)%nat -> (k < M)%nat ->
    exists v, cell_at cells k k = (Fin v, 0%nat) /\ v == 0.
Proof.
  intros Hz k. induction k as [|k IH]; intros Hi Hj;
    unfold cells; rewrite (cells_recurrence C M c00 C_rows) by assumption;
    fold cells;
    destruct (Hz _ Hi Hj) as (q & Eq & Hq); rewrite Eq; simpl padded_at.
  - rewrite c00_origin, Eq, accu_cell_origin. now exists q.
  - destruct (IH ltac:(lia) ltac:(lia)) as (d & Ed & Hd).
    rewrite Ed. simpl fst.
    rewrite accu_cell_diagonal;
      [| exact Hq | exact Hd | apply cells_costlike; lia
       | apply cells_costlike; lia].
    exists (d + q). split; [reflexivity|]. lra.
Qed.

End Costlike_costs.

Section Finite_costs.

Variable C : list (list F64).
Variable M : nat.
Variable c00 : F64.
Variable K : Q.

Hypothesis C_rows : Forall (fun r => List.length r = M) C.

Hypothesis C_finite :
  forall i j, (i < List.length C)%nat -> (j < M)%nat ->
    exists q, cost_at C i j = Fin q /\ 0 <= q /\ q <= K.

Hypothesis c00_origin : c00 = cost_at C 0 0.

Hypothesis K_nonneg : 0 <= K.

Hypothesis costs_room : frames_cost K (List.length C + M) < overflow_threshold.

Let cells := accu_cost C (repeat PosInf (S M)) (c00, 0%nat).

Lemma cell_room (i j : nat) :
  (i < List.length C)%nat -> (j < M)%nat ->
  frames_cost K (S (i + j)) < overflow_threshold.
Proof.
  intros Hi Hj.
  apply Qle_lt_trans with (frames_cost K (List.length C + M));
    [|exact costs_room].
  apply frames_cost_le; [exact K_nonneg | lia].
Qed.

(** When no sum of costs reaches the overflow threshold, every accumulated
    cost is finite, not negative and at most the costs of a path to the
    cell; in the first row the recorded step is (0,1), in the first column
    it is (1,0), and it is one of the three steps everywhere. *)
Lemma cells_finite (i : nat) :
  forall j, (i < List.length C)%nat -> (j < M)%nat ->
    exists v k,
      cell_at cells i j = (Fin v, k) /\ 0 <= v /\ (k <= 2)%nat /\
      (i = 0%nat -> (0 < j)%nat -> k = 1%nat) /\
      ((0 < i)%nat -> j = 0%nat -> k = 2%nat) /\
      v <= frames_cost K (S (i + j)).
Proof.
  induction i as [|i IHi]; induction j as [|j IHj]; intros Hi Hj;
    unfold cells; rewrite (cells_recurrence C M c00 C_rows) by assumption;
    fold cells;
    assert (Room := cell_room _ _ Hi Hj);
    destruct (C_finite _ _ Hi Hj) as (q & Eq & Hq & Hk); rewrite Eq;
    simpl padded_at.
  - rewrite c00_origin, Eq, accu_cell_origin.
    exists q, 0%nat.
    assert (B1 := frames_cost_succ K 0).
    assert (Z0 : frames_cost K 0 == 0) by (unfold frames_cost; simpl; ring).
    repeat split; try lia; try assumption. simpl Nat.add. lra.
  - destruct (IHj Hi ltac:(lia)) as (l & kl & El & Hl & _ & _ & _ & Bl).
    rewrite El. simpl fst.
    change (0 + S j)%nat with (S (0 + j)) in *.
    assert (B1 := frames_cost_succ K (S (0 + j))).
    rewrite accu_cell_first_row by lra.
    exists (l + q), 1%nat. repeat split; try lia; lra.
  - destruct (IHi 0%nat ltac:(lia) Hj) as (u & ku & Eu & Hu & _ & _ & _ & Bu).
    rewrite Eu. simpl fst.
    change (S i + 0)%nat with (S (i + 0)) in *.
    assert (B1 := frames_cost_succ K (S (i + 0))).
    rewrite accu_cell_first_column by lra.
    exists (u + q), 2%nat. repeat split; try lia; lra.
  - destruct (IHi j ltac:(lia) ltac:(lia))
      as (d & kd & Ed & Hd & _ & _ & _ & Bd).
    destruct (IHj Hi ltac:(lia)) as (l & kl & El & Hl & _ & _ & _ & Bl).
    destruct (IHi (S j) ltac:(lia) Hj) as (u & ku & Eu & Hu & _ & _ & _ & Bu).
    rewrite Ed, El, Eu. simpl fst.
    replace (S i + S j)%nat with (S (S (i + j))) in * by lia.
    replace (S i + j)%nat with (S (i + j)) in * by lia.
    replace (i + S j)%nat with (S (i + j)) in * by lia.
    assert (B1 := frames_cost_succ K (S (S (i + j)))).
    assert (B2 := frames_cost_succ K (S (i + j))).
    destruct (accu_cell_inner q d l u) as (v & k & E & Hk2 & Hv & Vd & _);
      try assumption; try lra.
    rewrite E. exists v, k. repeat split; try lia; lra.
Qed.

End Finite_costs.

(** ** Backtracking *)

Lemma steps_at_cells (cells : list (list (F64 * nat))) (i j : nat) :
  steps_at (map (map snd) cells) (i, j) = snd (cell_at cells i j).
Proof.
  unfold steps_at, cell_at. simpl.
  rewrite <- (map_nth snd (nth i cells []) (PosInf, 0%nat) j).
  rewrite <- (map_nth (map snd) cells [] i). reflexivity.
Qed.

Lemma step_back_diagonal (i j : nat) :
  step_back (S i, S j) 0 = Some (i, j).
Proof. unfold step_back. simpl. now rewrite !Nat.sub_0_r. Qed.

Lemma step_back_left (i j : nat) : step_back (i, S j) 1 = Some (i, j).
Proof. unfold step_back. simpl. now rewrite !Nat.sub_0_r. Qed.

Lemma step_back_up (i j : nat) : step_back (S i, j) 2 = Some (i, j).
Proof.
  unfold step_back. simpl. rewrite !Nat.sub_0_r.
  destruct j; reflexivity.
Qed.

Lemma is_origin_true (cur : nat * nat) :
  is_origin cur = true <-> cur = (0, 0)%nat.
Proof.
  destruct cur as [i j]. unfold is_origin. simpl.
  rewrite andb_true_iff, !Nat.eqb_eq. split.
  - intros [-> ->]. reflexivity.
  - intro H. injection H as -> ->. split; reflexivity.
Qed.

(** Away from the origin, the recorded step leads to a cell of the matrix
    that is one step back. *)
Lemma step_back_in_bounds (steps : list (list nat)) (N M : nat) :
  steps_in_bounds steps N M ->
  forall i j,
    (i < N)%nat -> (j < M)%nat -> is_origin (i, j) = false ->
    exists i' j',
      step_back (i, j) (steps_at steps (i, j)) = Some (i', j') /\
      backward_step (i, j) (i', j') /\
      (i' <= i)%nat /\ (j' <= j)%nat /\ (i' + j' < i + j)%nat.
Proof.
  intros B i j Hi Hj O.
  assert (Hne : ~ (i = 0 /\ j = 0)%nat).
  { intros [-> ->]. discriminate. }
  destruct (B i j Hi Hj) as (K & Krow & Kcol).
  destruct (steps_at steps (i, j)) as [|[|[|k]]] eqn:Ek; [| | |lia].
  - destruct i as [|i]; [specialize (Krow eq_refl); lia|].
    destruct j as [|j]; [specialize (Kcol ltac:(lia) eq_refl); lia|].
    exists i, j. rewrite step_back_diagonal.
    repeat split; try lia. right. right. reflexivity.
  - destruct j as [|j]; [specialize (Kcol ltac:(lia) eq_refl); lia|].
    exists i, j. rewrite step_back_left.
    repeat split; try lia. right. left. reflexivity.
  - destruct i as [|i]; [specialize (Krow eq_refl); lia|].
    exists i, j. rewrite step_back_up.
    repeat split; try lia. left. reflexivity.
Qed.

(** From a cell of the matrix the loop walks back one step at a time and
    stops at the origin. *)
Lemma backtrack_loop_path (steps : list (list nat)) (N M : nat) :
  steps_in_bounds steps N M ->
  forall fuel i j,
    (i < N)%nat -> (j < M)%nat -> (i + j <= fuel)%nat ->
    stepwise backward_step ((i, j) :: backtrack_loop fuel steps (i, j)) /\
    last ((i, j) :: backtrack_loop fuel steps (i, j)) (0, 0)%nat = (0, 0)%nat.
Proof.
  intro B. induction fuel as [|fuel IH]; intros i j Hi Hj Hf.
  - assert (i = 0%nat) by lia. assert (j = 0%nat) by lia. subst.
    split; [exact I | reflexivity].
  - simpl backtrack_loop.
    destruct (is_origin (i, j)) eqn:O.
    + apply is_origin_true in O. injection O as -> ->.
      split; [exact I | reflexivity].
    + destruct (step_back_in_bounds steps N M B i j Hi Hj O)
        as (i' & j' & E & R & Hi' & Hj' & Hf').
      rewrite E.
      destruct (IH i' j') as [P L]; try lia.
      split; [split; assumption | exact L].
Qed.

(** The loop ends by itself: any fuel that covers the two coordinates gives
    the same path. *)
Lemma backtrack_loop_fuel (steps : list (list nat)) (N M : nat) :
  steps_in_bounds steps N M ->
  forall fuel1 fuel2 i j,
    (i < N)%nat -> (j < M)%nat ->
    (i + j <= fuel1)%nat -> (i + j <= fuel2)%nat ->
    backtrack_loop fuel1 steps (i, j) = backtrack_loop fuel2 steps (i, j).
Proof.
  intro B. induction fuel1 as [|fuel1 IH]; intros fuel2 i j Hi Hj H1 H2.
  - assert (i = 0%nat) by lia. assert (j = 0%nat) by lia. subst.
    destruct fuel2; reflexivity.
  - destruct fuel2 as [|fuel2].
    + assert (i = 0%nat) by lia. assert (j = 0%nat) by lia. subst.
      reflexivity.
    + simpl. destruct (is_origin (i, j)) eqn:O; [reflexivity|].
      destruct (step_back_in_bounds steps N M B i j Hi Hj O)
        as (i' & j' & E & _ & Hi' & Hj' & Hf').
      rewrite E. f_equal. apply IH; lia.
Qed.

(** ** The cost matrix of two finite sequences *)

Lemma overflow_cases (q : Q) :
  overflow (Fin q) = PosInf \/
  (overflow (Fin q) = NegInf /\ q <= - overflow_threshold) \/
  overflow (Fin q) = Fin q.
Proof.
  unfold overflow.
  destruct (Qle_bool overflow_threshold q); [now left|].
  destruct (Qle_bool q (- overflow_threshold)) eqn:E; [|now right; right].
  apply Qle_bool_iff in E. right. left. now split.
Qed.

Lemma Qsquare_nonneg (x : Q) : 0 <= x * x.
Proof.
  unfold Qle, Qmult. simpl. rewrite Z.mul_1_r. apply Z.square_nonneg.
Qed.

Lemma Qsquare_le (x L : Q) : - L <= x -> x <= L -> x * x <= L * L.
Proof.
  intros H1 H2.
  assert (P : 0 <= (L - x) * (L + x)) by (apply Qmult_le_0_compat; lra).
  assert (E : (L - x) * (L + x) == L * L - x * x) by ring.
  lra.
Qed.

(** A distance is +inf or a finite number that is not negative: never NaN. *)
Lemma euclidean_costlike (a b : Q) : costlike (euclidean (Fin a) (Fin b)).
Proof.
  assert (P := overflow_threshold_pos).
  unfold euclidean, fsub. simpl fneg. simpl fadd. cbv zeta.
  destruct (overflow_cases (a + - b)) as [E|[[E _]|E]]; rewrite E;
    try exact I.
  simpl fmul.
  destruct (overflow_cases ((a + - b) * (a + - b))) as [F|[[F L]|F]];
    rewrite F; try exact I.
  - exfalso. assert (S := Qsquare_nonneg (a + - b)). lra.
  - exact (Qabs_nonneg (a + - b)).
Qed.

(** The distance of a number from itself is 0, whatever the number. *)
Lemma euclidean_self (a : Q) :
  exists q, euclidean (Fin a) (Fin a) = Fin q /\ q == 0.
Proof.
  assert (P := overflow_threshold_pos).
  assert (Z : a + - a == 0) by ring.
  assert (Z2 : (a + - a) * (a + - a) == 0) by ring.
  unfold euclidean, fsub. simpl fneg. simpl fadd. cbv zeta.
  rewrite (overflow_fin (a + - a)) by lra. simpl fmul.
  rewrite (overflow_fin ((a + - a) * (a + - a))) by lra.
  eexists. split; [reflexivity|]. rewrite Z. reflexivity.
Qed.

Lemma cost_limit_room :
  0 <= cost_limit /\ cost_limit < overflow_threshold /\
  cost_limit * cost_limit < overflow_threshold /\
  inject_Z max_frames * cost_limit < overflow_threshold.
Proof. repeat split; vm_compute; (reflexivity || discriminate). Qed.

(** Between two numbers of the magnitude of cents nothing overflows, and the
    distance is the absolute difference. *)
Lemma euclidean_small (a b : Q) :
  Qabs a <= cents_limit -> Qabs b <= cents_limit ->
  euclidean (Fin a) (Fin b) = Fin (Qabs (a + - b)) /\
  0 <= Qabs (a + - b) /\ Qabs (a + - b) <= cost_limit.
Proof.
  intros Ha Hb.
  apply Qabs_Qle_condition in Ha. apply Qabs_Qle_condition in Hb.
  destruct cost_limit_room as (L0 & L1 & L2 & _).
  assert (L : cost_limit == 2 * cents_limit) by reflexivity.
  assert (Hd : - cost_limit <= a + - b /\ a + - b <= cost_limit) by lra.
  assert (Hdd : (a + - b) * (a + - b) <= cost_limit * cost_limit)
    by (apply Qsquare_le; lra).
  assert (Hd0 := Qsquare_nonneg (a + - b)).
  unfold euclidean, fsub. simpl fneg. simpl fadd. cbv zeta.
  rewrite (overflow_fin (a + - b)) by lra. simpl fmul.
  rewrite (overflow_fin ((a + - b) * (a + - b))) by lra.
  split; [reflexivity|]. split; [apply Qabs_nonneg|].
  apply Qabs_Qle_condition. lra.
Qed.

Lemma cdist_length (X Y : list F64) :
  List.length (cdist X Y) = List.length X.
Proof. unfold cdist. apply length_map. Qed.

Lemma cdist_rows (X Y : list F64) :
  Forall (fun r => List.length r = List.length Y) (cdist X Y).
Proof.
  unfold cdist. apply Forall_forall. intros r Hr.
  apply in_map_iff in Hr. destruct Hr as (a & <- & _). apply length_map.
Qed.

Lemma cdist_at_any (X Y : list F64) (i j : nat) :
  (i < List.length X)%nat -> (j < List.length Y)%nat ->
  cost_at (cdist X Y) i j = euclidean (nth i X NaN) (nth j Y NaN).
Proof.
  intros Hi Hj. unfold cost_at, cdist.
  rewrite (nth_indep _ [] (map (euclidean NaN) Y))
    by (rewrite length_map; exact Hi).
  rewrite (map_nth (fun a => map (euclidean a) Y)).
  rewrite (nth_indep _ PosInf (euclidean (nth i X NaN) NaN))
    by (rewrite length_map; exact Hj).
  now rewrite (map_nth (euclidean (nth i X NaN))).
Qed.

Lemma cdist_at (xs ys : list Q) (i j : nat) :
  (i < List.length xs)%nat -> (j < List.length ys)%nat ->
  cost_at (cdist (map Fin xs) (map Fin ys)) i j
  = euclidean (Fin (nth i xs 0)) (Fin (nth j ys 0)).
Proof.
  intros Hi Hj.
  rewrite cdist_at_any by (rewrite length_map; assumption).
  rewrite (nth_indep _ NaN (Fin 0)) by (rewrite length_map; exact Hi).
  rewrite (nth_indep (map Fin ys) NaN (Fin 0)) by (rewrite length_map; exact Hj).
  now rewrite !(map_nth Fin).
Qed.

Lemma cdist_no_nan (xs ys : list Q) :
  existsb (existsb isnan) (cdist (map Fin xs) (map Fin ys)) = false.
Proof.
  unfold cdist. induction xs as [|x xs IH]; [reflexivity|].
  simpl. rewrite IH, orb_false_r.
  clear IH. induction ys as [|y ys IH]; [reflexivity|].
  simpl map. simpl existsb. rewrite IH, orb_false_r.
  apply costlike_no_nan, euclidean_costlike.
Qed.

(** What [dtw] does once the cost matrix has a first entry and no NaN. *)
Lemma dtw_run (X Y : list F64) (c00 : F64) (row : list F64)
  (rest : list (list F64)) :
  existsb (existsb isnan) (cdist X Y) = false ->
  cdist X Y = (c00 :: row) :: rest ->
  dtw X Y
  = (let cells :=
       accu_cost (cdist X Y) (repeat PosInf (S (List.length Y)))
         (c00, 0%nat) in
     let wp := dtw_backtracking (map (map snd) cells) in
     if is_origin (last wp (0, 0)%nat) then Ok (map (map fst) cells, wp)
     else Raise ParameterError).
Proof.
  intros Hn E. unfold dtw. cbv zeta.
  destruct X as [|a X]; [discriminate|].
  destruct Y as [|b Y]; [discriminate|].
  change ((List.length (a :: X) =? 0)%nat || (List.length (b :: Y) =? 0)%nat)
    with false. cbv iota.
  rewrite Hn, E. reflexivity.
Qed.

Lemma hd_nth_0 {A : Type} (l : list (list A)) : hd [] l = nth 0 l [].
Proof. destruct l; reflexivity. Qed.

Section Dtw_shape.

Variables xs ys : list Q.

Hypothesis xs_frames : xs <> [].
Hypothesis ys_frames : ys <> [].

Let N := List.length xs.
Let M := List.length ys.
Let C := cdist (map Fin xs) (map Fin ys).
Let cells := accu_cost C (repeat PosInf (S M)) (cost_at C 0 0, 0%nat).
Let steps := map (map snd) cells.

Lemma dtw_sizes : (0 < N)%nat /\ (0 < M)%nat.
Proof.
  unfold N, M. destruct xs, ys; simpl; try congruence; lia.
Qed.

Lemma dtw_C_length : List.length C = N.
Proof. unfold C. rewrite cdist_length. apply length_map. Qed.

Lemma dtw_C_rows : Forall (fun r => List.length r = M) C.
Proof.
  unfold C, M. rewrite <- (length_map Fin ys). apply cdist_rows.
Qed.

Lemma dtw_C_costlike (i j : nat) :
  (i < List.length C)%nat -> (j < M)%nat -> costlike (cost_at C i j).
Proof.
  rewrite dtw_C_length. intros Hi Hj. unfold C.
  rewrite cdist_at by assumption. apply euclidean_costlike.
Qed.

Lemma dtw_steps_shape :
  List.length steps = N /\ List.length (hd [] steps) = M.
Proof.
  destruct dtw_sizes as [HN HM]. split.
  - unfold steps, cells. rewrite length_map, accu_cost_length.
    apply dtw_C_length.
  - rewrite hd_nth_0. unfold steps.
    change (@nil nat) with (map (@snd F64 nat) []).
    rewrite map_nth, length_map. unfold cells.
    apply (accu_cost_row_length M C dtw_C_rows).
    + apply repeat_length.
    + rewrite dtw_C_length. exact HN.
Qed.

Lemma dtw_C_origin :
  exists row rest, C = (cost_at C 0 0 :: row) :: rest.
Proof.
  unfold C. destruct xs as [|x xs']; [congruence|].
  destruct ys as [|y ys']; [congruence|].
  simpl. eexists. eexists. reflexivity.
Qed.

End Dtw_shape.

Section Dtw_finite.

Variables xs ys : list Q.

Hypothesis xs_frames : xs <> [].
Hypothesis ys_frames : ys <> [].

Hypothesis xs_cents : Forall (fun q => Qabs q <= cents_limit) xs.
Hypothesis ys_cents : Forall (fun q => Qabs q <= cents_limit) ys.

Hypothesis frames_room :
  (Z.of_nat (List.length xs + List.length ys) <= max_frames)%Z.

Let N := List.length xs.
Let M := List.length ys.
Let C := cdist (map Fin xs) (map Fin ys).
Let cells := accu_cost C (repeat PosInf (S M)) (cost_at C 0 0, 0%nat).
Let steps := map (map snd) cells.

Lemma dtw_C_finite (i j : nat) :
  (i < List.length C)%nat -> (j < M)%nat ->
  exists q, cost_at C i j = Fin q /\ 0 <= q /\ q <= cost_limit.
Proof.
  unfold C. rewrite dtw_C_length. intros Hi Hj.
  rewrite cdist_at by assumption.
  destruct (euclidean_small (nth i xs 0) (nth j ys 0)) as (E & H0 & H1).
  - apply (proj1 (Forall_forall _ xs) xs_cents). now apply nth_In.
  - apply (proj1 (Forall_forall _ ys) ys_cents). now apply nth_In.
  - rewrite E. eexists. split; [reflexivity|]. split; assumption.
Qed.

Lemma dtw_costs_room :
  frames_cost cost_limit (List.length C + M) < overflow_threshold.
Proof.
  unfold C. rewrite dtw_C_length. unfold M, frames_cost.
  destruct cost_limit_room as (L0 & _ & _ & L3).
  apply Qle_lt_trans with (inject_Z max_frames * cost_limit); [|exact L3].
  apply Qmult_le_compat_r; [|exact L0].
  rewrite <- Zle_Qle. exact frames_room.
Qed.

Lemma dtw_steps_in_bounds : steps_in_bounds steps N M.
Proof.
  intros i j Hi Hj. unfold steps. rewrite steps_at_cells.
  unfold N in Hi. rewrite <- (dtw_C_length xs ys) in Hi.
  destruct (cells_finite C M (cost_at C 0 0) cost_limit (dtw_C_rows xs ys)
              dtw_C_finite eq_refl (proj1 cost_limit_room) dtw_costs_room
              i j Hi Hj) as (v & k & E & _ & Hk & Hrow & Hcol & _).
  fold cells in E. rewrite E. simpl. repeat split; assumption.
Qed.

(** On two non-empty sequences of numbers of the magnitude of cents [dtw]
    returns; its path starts at the last cell, walks back one step at a time
    and ends at the origin. *)
Lemma dtw_finite :
  exists D wp,
    dtw (map Fin xs) (map Fin ys) = Ok (D, wp) /\
    wp = dtw_backtracking steps /\
    hd_error wp = Some (N - 1, M - 1)%nat /\
    last wp (0, 0)%nat = (0, 0)%nat /\
    stepwise backward_step wp.
Proof.
  destruct (dtw_sizes xs ys xs_frames ys_frames) as [HN HM].
  destruct (dtw_C_origin xs ys xs_frames ys_frames) as (row & rest & E).
  destruct (dtw_steps_shape xs ys xs_frames ys_frames) as [Ls Lh].
  change (C = (cost_at C 0 0 :: row) :: rest) in E.
  change (List.length steps = N) in Ls.
  change (List.length (hd [] steps) = M) in Lh.
  change (0 < N)%nat in HN. change (0 < M)%nat in HM.
  assert (P := backtrack_loop_path steps N M dtw_steps_in_bounds
                 ((N - 1) + (M - 1)) (N - 1) (M - 1)
                 ltac:(lia) ltac:(lia) ltac:(lia)).
  destruct P as [P L].
  assert (W : dtw_backtracking steps
              = (N - 1, M - 1)%nat
                :: backtrack_loop ((N - 1) + (M - 1)) steps
                     (N - 1, M - 1)%nat).
  { unfold dtw_backtracking. rewrite Ls, Lh. reflexivity. }
  exists (map (map fst) cells), (dtw_backtracking steps).
  split; [|split; [reflexivity|]].
  - rewrite (dtw_run _ _ (cost_at C 0 0) row rest).
    + cbv zeta. rewrite length_map. fold M. fold C. fold cells. fold steps.
      rewrite W, L. reflexivity.
    + apply cdist_no_nan.
    + exact E.
  - rewrite W. split; [reflexivity|]. split; assumption.
Qed.

End Dtw_finite.

(** ** Paths read backwards *)

Lemma stepwise_snoc {A : Type} (R : A -> A -> Prop) (d a : A) (l : list A) :
  stepwise R l -> (l <> [] -> R (last l d) a) -> stepwise R (l ++ [a]).
Proof.
  induction l as [|x l IH]; intros S H; [exact I|].
  destruct l as [|y l].
  - simpl. split; [|exact I]. apply H. discriminate.
  - destruct S as [Rxy S]. split; [exact Rxy|].
    apply IH; [exact S|]. intros _. apply H. discriminate.
Qed.

Lemma stepwise_rev {A : Type} (R : A -> A -> Prop) (l : list A) :
  stepwise R l -> stepwise (fun a b => R b a) (rev l).
Proof.
  induction l as [|x l IH]; intro S; [exact I|].
  simpl rev. apply (stepwise_snoc _ x).
  - apply IH. destruct l; [exact I | apply S].
  - intros Hne. destruct l as [|y l]; [exfalso; now apply Hne|].
    simpl rev. rewrite last_last. apply S.
Qed.

Lemma hd_error_rev {A : Type} (d : A) (l : list A) :
  l <> [] -> hd_error (rev l) = Some (last l d).
Proof.
  intro H. destruct (exists_last H) as (l' & a & ->).
  rewrite rev_app_distr, last_last. reflexivity.
Qed.

Lemma last_rev {A : Type} (d a : A) (l : list A) :
  hd_error l = Some a -> last (rev l) d = a.
Proof.
  destruct l as [|x l]; [discriminate|]. intro H. injection H as ->.
  simpl rev. apply last_last.
Qed.

(** ** The aligner *)

Lemma filled_finite (l : list F64) :
  map (nan_to_num 0) l
  = map Fin (map (fun x => finite_value (nan_to_num 0 x)) l).
Proof.
  rewrite map_map. apply map_ext. intros [| | |q]; reflexivity.
Qed.

(** Walking back along recorded diagonal steps. *)
Lemma backtrack_loop_diagonal (steps : list (list nat)) (n : nat) :
  (forall k, (0 < k)%nat -> (k <= n)%nat -> steps_at steps (k, k) = 0%nat) ->
  forall fuel, (n + n <= fuel)%nat ->
    backtrack_loop fuel steps (n, n) = map (fun k => (k, k)) (rev (seq 0 n)).
Proof.
  induction n as [|n IH]; intros Hs fuel Hf.
  - destruct fuel; reflexivity.
  - destruct fuel as [|fuel]; [lia|].
    simpl backtrack_loop.
    rewrite (Hs (S n)) by lia. rewrite step_back_diagonal.
    rewrite seq_S, rev_app_distr. simpl. f_equal.
    apply IH; [|lia]. intros k H0 Hk. apply Hs; lia.
Qed.

Lemma diagonal_path_last (n : nat) :
  last (map (fun k => (k, k)) (rev (seq 0 (S n)))) (0, 0)%nat = (0, 0)%nat.
Proof.
  change (seq 0 (S n)) with (0%nat :: seq 1 n). simpl rev.
  rewrite map_app. simpl. apply last_last.
Qed.

(** A sequence of numbers against itself, whatever the numbers: the path is
    the diagonal, from the last frame down to the first.  The costs on the
    diagonal are exactly 0 and the diagonal step is tried first, so the
    overflow of the other costs does not matter. *)
Lemma dtw_identity (xs : list Q) :
  xs <> [] ->
  exists D,
    dtw (map Fin xs) (map Fin xs)
    = Ok (D, map (fun k => (k, k)) (rev (seq 0 (List.length xs)))).
Proof.
  intro H.
  destruct (dtw_C_origin xs xs H H) as (row & rest & E).
  destruct (dtw_steps_shape xs xs H H) as [Ls Lh].
  cbv zeta in E, Ls, Lh.
  set (C := cdist (map Fin xs) (map Fin xs)) in *.
  set (cells := accu_cost C (repeat PosInf (S (List.length xs)))
                  (cost_at C 0 0, 0%nat)) in *.
  set (steps := map (map snd) cells) in *.
  destruct (List.length xs) as [|n] eqn:En.
  { destruct xs; [congruence | discriminate]. }
  assert (W : dtw_backtracking steps
              = map (fun k => (k, k)) (rev (seq 0 (S n)))).
  { unfold dtw_backtracking. rewrite Ls, Lh.
    simpl fst. simpl snd. replace (S n - 1)%nat with n by lia.
    rewrite seq_S, rev_app_distr. simpl. f_equal.
    apply backtrack_loop_diagonal; [|lia].
    intros k H0 Hk. unfold steps. rewrite steps_at_cells.
    destruct (cells_diagonal C (S n) (cost_at C 0 0)) with (k := k)
      as (v & Ev & _).
    - rewrite <- En. apply dtw_C_rows.
    - intros i j Hi Hj. apply dtw_C_costlike; [exact Hi | now rewrite En].
    - reflexivity.
    - intros i Hi Hj. unfold C. rewrite cdist_at by (rewrite En; exact Hj).
      apply euclidean_self.
    - unfold C. rewrite dtw_C_length, En. lia.
    - lia.
    - fold cells in Ev. rewrite Ev. reflexivity. }
  exists (map (map fst) cells).
  rewrite (dtw_run _ _ (cost_at C 0 0) row rest);
    [| apply cdist_no_nan | exact E].
  cbv zeta. rewrite length_map, En. fold C. fold cells. fold steps.
  rewrite W, diagonal_path_last. reflexivity.
Qed.

(** No frame on one side: the routine raises before it builds a matrix. *)
Lemma dtw_empty (X Y : list F64) :
  X = [] \/ Y = [] -> dtw X Y = Raise ValueError.
Proof.
  intros [-> | ->]; [reflexivity|].
  unfold dtw. simpl. now rewrite orb_true_r.
Qed.

(** The cents of a regular frame, once filled, are a number of bounded
    magnitude. *)
Lemma regular_cents (lg : Q -> Q) (f : F64) :
  regular_frame lg f ->
  Qabs (finite_value
          (nan_to_num 0
             (fmul (Fin 1200) (np_log2 lg (fdiv f ref_hz_default)))))
  <= cents_limit.
Proof.
  assert (Z : Qabs 0 <= cents_limit) by (vm_compute; discriminate).
  destruct f as [| | |q]; simpl; intro R; try exact Z; [tauto|].
  destruct R as (R0 & _ & R1). unfold np_log2.
  destruct (q / 440 ?= 0) eqn:E.
  - exfalso. apply Qeq_alt in E.
    assert (E0 : q == 0).
    { assert (q == q / 440 * 440) by field. lra. }
    rewrite E0 in R0. revert R0. vm_compute. intro R0. now apply R0.
  - exact Z.
  - apply Qgt_alt in E.
    assert (Hq : 0 < q).
    { assert (q == q / 440 * 440) by field. lra. }
    specialize (R1 Hq).
    change (Qabs (1200 * lg (q / 440)) <= cents_limit).
    unfold cents_limit. apply Qabs_Qle_condition in R1.
    apply Qabs_Qle_condition. lra.
Qed.

Lemma filled_cents (lg : Q -> Q) (f0 : list F64) :
  Forall (regular_frame lg) f0 ->
  Forall (fun q => Qabs q <= cents_limit)
    (map (fun x => finite_value (nan_to_num 0 x))
       (hz_to_cents lg f0 ref_hz_default)).
Proof.
  intro H. unfold hz_to_cents. rewrite map_map.
  apply Forall_map. revert H. apply Forall_impl.
  intros f R. now apply regular_cents.
Qed.

Section Aligner.

Variable lg : Q -> Q.

Lemma hz_to_cents_length (f0 : list F64) (ref_hz : F64) :
  List.length (hz_to_cents lg f0 ref_hz) = List.length f0.
Proof. unfold hz_to_cents. apply length_map. Qed.

(** The filled cents of a curve, as the numbers that [dtw] receives. *)
Lemma filled_shape (f0 : list F64) :
  let xs := map (fun x => finite_value (nan_to_num 0 x))
              (hz_to_cents lg f0 ref_hz_default) in
  List.length xs = List.length f0 /\ (f0 <> [] -> xs <> []).
Proof.
  intro xs.
  assert (L : List.length xs = List.length f0).
  { unfold xs. now rewrite length_map, hz_to_cents_length. }
  split; [exact L|]. intros H E. rewrite E in L.
  destruct f0; [congruence | discriminate].
Qed.

(** The aligner on two non-empty curves of regular frames. *)
Lemma align_with_dtw_path (f0_1 f0_2 : list F64) :
  f0_1 <> [] -> f0_2 <> [] ->
  Forall (regular_frame lg) f0_1 -> Forall (regular_frame lg) f0_2 ->
  (Z.of_nat (List.length f0_1 + List.length f0_2) <= max_frames)%Z ->
  exists wp D,
    align_with_dtw lg f0_1 f0_2 = Ok (wp, D) /\
    hd_error wp = Some (List.length f0_1 - 1, List.length f0_2 - 1)%nat /\
    last wp (0, 0)%nat = (0, 0)%nat /\
    stepwise backward_step wp.
Proof.
  intros H1 H2 R1 R2 Hr. unfold align_with_dtw. cbv zeta.
  rewrite !filled_finite.
  destruct (filled_shape f0_1) as [L1 X1], (filled_shape f0_2) as [L2 X2].
  set (xs := map _ (hz_to_cents lg f0_1 _)) in *.
  set (ys := map _ (hz_to_cents lg f0_2 _)) in *.
  destruct (dtw_finite xs ys (X1 H1) (X2 H2) (filled_cents lg f0_1 R1)
              (filled_cents lg f0_2 R2))
    as (D & wp & E & _ & Hh & Hl & Hs).
  { rewrite L1, L2. exact Hr. }
  exists wp, D. rewrite E. simpl. rewrite <- L1, <- L2.
  repeat split; assumption.
Qed.

(** C1, as the code has it.  For two non-empty curves of [N] and [M] frames,
    none of them 0 Hz or +inf, the aligner returns a path that, read in its
    stored order, begins with [(N-1, M-1)], ends with [(0, 0)], and in which
    every pair is the one before it moved back by (1,0), (0,1) or (1,1): the
    path is stored from the last frame to the first.  Read from its end to
    its beginning it starts at [(0, 0)], ends at [(N-1, M-1)] and moves
    forward by these steps.  (A frame of 0 Hz or +inf has infinite cents,
    filled with the largest finite number; its costs overflow and the DTW
    routine can fail to find a path.) *)
Theorem alignment_path_backward (f0_1 f0_2 : list F64) :
  f0_1 <> [] -> f0_2 <> [] ->
  Forall (regular_frame lg) f0_1 -> Forall (regular_frame lg) f0_2 ->
  (Z.of_nat (List.length f0_1 + List.length f0_2) <= max_frames)%Z ->
  exists wp D,
    align_with_dtw lg f0_1 f0_2 = Ok (wp, D) /\
    hd_error wp = Some (List.length f0_1 - 1, List.length f0_2 - 1)%nat /\
    last wp (0, 0)%nat = (0, 0)%nat /\
    stepwise backward_step wp /\
    hd_error (rev wp) = Some (0, 0)%nat /\
    last (rev wp) (0, 0)%nat
    = (List.length f0_1 - 1, List.length f0_2 - 1)%nat /\
    stepwise forward_step (rev wp).
Proof.
  intros H1 H2 R1 R2 Hr.
  destruct (align_with_dtw_path f0_1 f0_2 H1 H2 R1 R2 Hr)
    as (wp & D & E & Hh & Hl & Hs).
  exists wp, D. split; [exact E|]. split; [exact Hh|].
  split; [exact Hl|]. split; [exact Hs|].
  split; [|split].
  - rewrite <- Hl. apply hd_error_rev. intro K. rewrite K in Hh. discriminate.
  - now apply last_rev.
  - exact (stepwise_rev backward_step wp Hs).
Qed.


(** C8, as the code has it.  When one of the two curves has no frame the
    aligner returns no path: the DTW routine raises on the empty input, and
    the aligner, which checks nothing and handles nothing itself, lets the
    exception of the library through; it is not an [EmptyContourError]. *)
Theorem align_empty_curve (f0_1 f0_2 : list F64) :
  f0_1 = [] \/ f0_2 = [] ->
  exists exc,
    align_with_dtw lg f0_1 f0_2 = Raise exc /\
    exc <> "EmptyContourError"%string.
Proof.
  intro H. exists ValueError. split; [|discriminate].
  unfold align_with_dtw. cbv zeta.
  rewrite dtw_empty; [reflexivity|].
  destruct H as [-> | ->]; [left | right]; reflexivity.
Qed.

End Aligner.

(** ** A curve against itself *)

Lemma rev_seq_nth (N k : nat) :
  (k < N)%nat -> nth_error (rev (seq 0 N)) k = Some (N - 1 - k)%nat.
Proof.
  intro H.
  rewrite (nth_error_nth' _ 0%nat) by (rewrite length_rev, length_seq; lia).
  rewrite rev_nth by (rewrite length_seq; lia).
  rewrite length_seq, seq_nth by lia. f_equal. lia.
Qed.

Lemma diagonal_path_nth (N k : nat) :
  (k < N)%nat ->
  nth_error (map (fun k => (k, k)) (rev (seq 0 N))) k
  = Some (N - 1 - k, N - 1 - k)%nat.
Proof. intro H. now rewrite nth_error_map, (rev_seq_nth N k H). Qed.

Section Identity.

Variable lg : Q -> Q.

(** [numpy.log2] of 1 is 0. *)
Hypothesis lg_one : forall q, q == 1 -> lg q == 0.

(** The deviation of a finite non-zero frequency from itself. *)
Lemma self_deviation (q : Q) :
  ~ q == 0 ->
  exists z,
    fmul (Fin 1200) (np_log2 lg (fdiv (Fin q) (Fin q))) = Fin z /\ z == 0.
Proof.
  intro H.
  assert (One : q / q == 1) by (field; exact H).
  assert (E0 : (q ?= 0) <> Eq) by (intro K; apply Qeq_alt in K; tauto).
  assert (D : fdiv (Fin q) (Fin q) = Fin (q / q)).
  { unfold fdiv. destruct (q ?= 0); [congruence | reflexivity | reflexivity]. }
  rewrite D. unfold np_log2.
  rewrite (Qcompare_Gt (q / q) 0) by (rewrite One; reflexivity).
  simpl. eexists. split; [reflexivity|].
  rewrite (lg_one _ One). reflexivity.
Qed.

(** C9, as the code has it.  Aligning a non-empty curve of [N] frames
    against itself gives the diagonal path stored from the last frame to the
    first, its k-th pair being [(N-1-k, N-1-k)]; the deviation series over
    it has one entry per pair, NaN where the frequency of the pair is NaN
    and zero where it is a finite number other than 0. *)
Theorem identity_alignment (f0 : list F64) :
  f0 <> [] ->
  exists wp D diffs,
    align_with_dtw lg f0 f0 = Ok (wp, D) /\
    List.length wp = List.length f0 /\
    (forall k, (k < List.length f0)%nat ->
       nth_error wp k
       = Some (List.length f0 - 1 - k, List.length f0 - 1 - k)%nat) /\
    calculate_pitch_diff lg f0 f0 wp = Ok diffs /\
    List.length diffs = List.length f0 /\
    (forall k a, (k < List.length f0)%nat ->
       nth_error f0 (List.length f0 - 1 - k) = Some a ->
       exists d,
         nth_error diffs k = Some d /\
         (a = NaN -> d = NaN) /\
         (forall q, a = Fin q -> ~ q == 0 -> exists z, d = Fin z /\ z == 0)).
Proof.
  intro H.
  set (N := List.length f0).
  set (wp := map (fun k => (k, k)) (rev (seq 0 N))).
  assert (A : exists D, align_with_dtw lg f0 f0 = Ok (wp, D)).
  { unfold align_with_dtw. cbv zeta. rewrite filled_finite.
    set (xs := map _ (hz_to_cents lg f0 _)).
    assert (L : List.length xs = N).
    { unfold xs. now rewrite length_map, hz_to_cents_length. }
    assert (X : xs <> []).
    { intro E. rewrite E in L. unfold N in L.
      destruct f0; [congruence | discriminate]. }
    destruct (dtw_identity xs X) as (D & E).
    exists D. rewrite E, L. reflexivity. }
  destruct A as (D & E).
  assert (Lw : List.length wp = N).
  { unfold wp. now rewrite length_map, length_rev, length_seq. }
  assert (Ed := calculate_pitch_diff_diagonal lg f0 (rev (seq 0 N))).
  fold wp in Ed.
  specialize (Ed ltac:(intros k Hk; apply in_rev, in_seq in Hk; lia)).
  eexists wp, D, _.
  split; [exact E|]. split; [exact Lw|].
  split; [intros k Hk; now apply diagonal_path_nth|].
  split; [exact Ed|].
  split; [now rewrite length_map, length_rev, length_seq|].
  intros k a Hk Ha.
  rewrite nth_error_map, (rev_seq_nth N k Hk). simpl.
  fold N in Ha. rewrite (nth_error_nth _ _ _ Ha).
  eexists. split; [reflexivity|]. split.
  - intros ->. reflexivity.
  - intros q -> Hq. simpl. now apply self_deviation.
Qed.

End Identity.

(** ** Running the program *)

Lemma log2_linear_one (q : Q) : q == 1 -> log2_linear q == 0.
Proof.
  intro H.
  assert (F : log2_floor q = 0%Z).
  { unfold log2_floor.
    assert (En : Qnum q = Zpos (Qden q)).
    { unfold Qeq in H. simpl in H. lia. }
    rewrite En, Z.sub_diag.
    assert (L : Qltb q (2 ^ 0) = false).
    { apply Qltb_false. rewrite H. simpl. lra. }
    now rewrite L. }
  unfold log2_linear. rewrite F. simpl. rewrite H. field.
Qed.

Lemma alignment_path_backward_witness :
  [Fin 440; Fin 880] <> [] /\ [Fin 440; NaN; Fin 880] <> [] /\
  Forall (regular_frame log2_linear) [Fin 440; Fin 880] /\
  Forall (regular_frame log2_linear) [Fin 440; NaN; Fin 880] /\
  exists wp D,
    align_with_dtw log2_linear [Fin 440; Fin 880] [Fin 440; NaN; Fin 880]
    = Ok (wp, D) /\
    hd_error wp = Some (1, 2)%nat /\
    last wp (0, 0)%nat = (0, 0)%nat.
Proof.
  split; [discriminate|]. split; [discriminate|].
  split; [regular_frames|]. split; [regular_frames|].
  destruct (alignment_path_backward log2_linear
              [Fin 440; Fin 880] [Fin 440; NaN; Fin 880]
              ltac:(discriminate) ltac:(discriminate)
              ltac:(regular_frames) ltac:(regular_frames)
              ltac:(frames_room))
    as (wp & D & E & Hh & Hl & _).
  exists wp, D. repeat split; assumption.
Defined.

(** C1 as stated fails: on curves of 3 and 5 frames the stored path begins
    with (2, 4), not with (0, 0), and its second pair (2, 3) is not the
    first one moved forward by one of the three steps. *)
Lemma alignment_path_not_forward :
  exists wp D,
    align_with_dtw log2_linear [Fin 440; Fin 880; Fin 440]
      [Fin 440; Fin 440; Fin 880; NaN; Fin 440] = Ok (wp, D) /\
    wp = [(2, 4); (2, 3); (1, 2); (0, 1); (0, 0)]%nat /\
    hd_error wp <> Some (0, 0)%nat /\
    ~ stepwise forward_step wp.
Proof.
  eexists. eexists. split; [vm_compute; reflexivity|].
  split; [reflexivity|]. split; [discriminate|].
  intros [[H|[H|H]] _]; discriminate.
Qed.

(** A frame of 0 Hz has cents of -inf, filled with the smallest finite
    number; against frames of 440 Hz every cost overflows, no step is
    recorded, and the DTW routine finds no path. *)
Example zero_hz_frame_alignment :
  align_with_dtw log2_linear [Fin 0] [Fin 440; Fin 440]
  = Raise ParameterError.
Proof. vm_compute. reflexivity. Qed.

Lemma align_empty_curve_witness :
  (@nil F64 = [] \/ [Fin 440] = []) /\
  exists exc,
    align_with_dtw log2_linear [] [Fin 440] = Raise exc /\
    exc <> "EmptyContourError"%string.
Proof.
  split; [left; reflexivity|].
  apply align_empty_curve. left. reflexivity.
Defined.

(** C8 as stated fails: with an empty second curve the aligner fails, but
    what reaches the caller is not an [EmptyContourError]. *)
Lemma align_empty_curve_not_contour_error :
  (exists exc,
     align_with_dtw log2_linear [Fin 440; Fin 450] [] = Raise exc) /\
  align_with_dtw log2_linear [Fin 440; Fin 450] []
  <> Raise "EmptyContourError".
Proof. split; [eexists; reflexivity | discriminate]. Qed.

Lemma identity_alignment_witness :
  [Fin 440; NaN] <> [] /\
  exists wp D diffs,
    align_with_dtw log2_linear [Fin 440; NaN] [Fin 440; NaN] = Ok (wp, D) /\
    nth_error wp 0 = Some (1, 1)%nat /\
    calculate_pitch_diff log2_linear [Fin 440; NaN] [Fin 440; NaN] wp
    = Ok diffs /\
    nth_error diffs 0 = Some NaN.
Proof.
  split; [discriminate|].
  destruct (identity_alignment log2_linear log2_linear_one [Fin 440; NaN])
    as (wp & D & diffs & E & _ & Hw & Ed & _ & Hd); [discriminate|].
  exists wp, D, diffs. split; [exact E|].
  split; [apply (Hw 0%nat); simpl; lia|].
  split; [exact Ed|].
  destruct (Hd 0%nat NaN) as (d & Ek & Hnan & _);
    [simpl; lia | reflexivity|].
  rewrite Ek. f_equal. now apply Hnan.
Defined.

(** C9 as stated fails: on a curve of two frames the stored path is
    [(1,1), (0,0)], so its pair 0 is not (0, 0); and at a frame of 0 Hz, a
    frequency that is present, the deviation is NaN and not zero. *)
Lemma identity_path_not_diagonal_order :
  exists D z,
    align_with_dtw log2_linear [Fin 0; Fin 440] [Fin 0; Fin 440]
    = Ok ([(1, 1); (0, 0)]%nat, D) /\
    nth_error [(1, 1); (0, 0)]%nat 0 <> Some (0, 0)%nat /\
    isnan (Fin 0) = false /\
    calculate_pitch_diff log2_linear [Fin 0; Fin 440] [Fin 0; Fin 440]
      [(1, 1); (0, 0)]%nat = Ok [Fin z; NaN].
Proof.
  eexists. eexists. split; [vm_compute; reflexivity|].
  split; [discriminate|]. split; [reflexivity|].
  vm_compute. reflexivity.
Qed.

(** Three identical frames of 440 Hz on both sides: the diagonal path, stored
    from the last frame to the first, three zero deviations, all of them
    accurate, and the best verdict without a directional note. *)
Example identical_curves_report :
  exists D diffs r,
    align_with_dtw log2_linear [Fin 440; Fin 440; Fin 440]
      [Fin 440; Fin 440; Fin 440]
    = Ok ([(2, 2); (1, 1); (0, 0)]%nat, D) /\
    calculate_pitch_diff log2_linear [Fin 440; Fin 440; Fin 440]
      [Fin 440; Fin 440; Fin 440] [(2, 2); (1, 1); (0, 0)]%nat = Ok diffs /\
    generate_report diffs = Analysis r /\
    accurate r = 3%nat /\ total r = 3%nat /\
    assessment r = Excellent /\ trend r = None.
Proof.
  eexists. eexists. eexists.
  split; [vm_compute; reflexivity|].
  split; [vm_compute; reflexivity|].
  split; [vm_compute; reflexivity|].
  repeat split.
Qed.

(** Three deviations of 100 cents: all seriously off, a mean of 100 cents
    and the sharp note. *)
Example sharp_curve_report :
  exists r,
    generate_report [Fin 100; Fin 100; Fin 100] = Analysis r /\
    seriously_off r = 3%nat /\ mean_label r = Sharp /\
    trend r = Some Sharp /\ assessment r = NeedsMuchPractice.
Proof. eexists. split; [vm_compute; reflexivity|]. repeat split. Qed.

(** * Further properties *)

(** ** Shape of a path stored from the last cell to the origin *)

Lemma backward_step_le (p q : nat * nat) :
  backward_step p q ->
  (fst q <= fst p <= S (fst q))%nat /\ (snd q <= snd p <= S (snd q))%nat /\
  (fst q + snd q < fst p + snd p)%nat.
Proof.
  destruct p as [i j], q as [i' j']. unfold backward_step, forward_step.
  simpl. intros [H|[H|H]]; injection H as -> ->; lia.
Qed.

Lemma backward_path_inside (l : list (nat * nat)) :
  forall p, stepwise backward_step (p :: l) ->
    forall x, In x (p :: l) ->
      (fst x <= fst p)%nat /\ (snd x <= snd p)%nat.
Proof.
  induction l as [|q l IH]; intros p S x Hx.
  - destruct Hx as [<-|[]]. lia.
  - destruct S as [R S]. destruct Hx as [<-|Hx]; [lia|].
    apply backward_step_le in R. destruct (IH q S x Hx). lia.
Qed.

Lemma backward_path_length (l : list (nat * nat)) :
  forall p, stepwise backward_step (p :: l) ->
    last (p :: l) (0, 0)%nat = (0, 0)%nat ->
    (fst p <= List.length l)%nat /\ (snd p <= List.length l)%nat /\
    (List.length l <= fst p + snd p)%nat.
Proof.
  induction l as [|q l IH]; intros p S L.
  - simpl in L. subst p. simpl. lia.
  - destruct S as [R S]. apply backward_step_le in R.
    change (last (p :: q :: l) (0, 0)%nat) with (last (q :: l) (0, 0)%nat) in L.
    destruct (IH q S L) as (A & B & C). simpl List.length. lia.
Qed.

Lemma backward_path_covers (l : list (nat * nat)) :
  forall p, stepwise backward_step (p :: l) ->
    last (p :: l) (0, 0)%nat = (0, 0)%nat ->
    (forall i, (i <= fst p)%nat -> exists j, In (i, j) (p :: l)) /\
    (forall j, (j <= snd p)%nat -> exists i, In (i, j) (p :: l)).
Proof.
  induction l as [|q l IH]; intros p S L.
  - simpl in L. subst p. simpl.
    split; intros k Hk; exists 0%nat; left; f_equal; lia.
  - destruct S as [R S]. apply backward_step_le in R.
    change (last (p :: q :: l) (0, 0)%nat) with (last (q :: l) (0, 0)%nat) in L.
    destruct (IH q S L) as [Hi Hj]. split.
    + intros i Hk. destruct (Nat.eq_dec i (fst p)) as [->|Ne].
      * exists (snd p). left. now destruct p.
      * destruct (Hi i ltac:(lia)) as (j & Hin). exists j. now right.
    + intros j Hk. destruct (Nat.eq_dec j (snd p)) as [->|Ne].
      * exists (fst p). left. now destruct p.
      * destruct (Hj j ltac:(lia)) as (i & Hin). exists i. now right.
Qed.

Section Path_shape.

Variable lg : Q -> Q.

(** X1.  For two non-empty curves without a frame of 0 Hz or +inf, the pairs
    of the aligner's path index frames of the two curves, and the path is
    at least as long as the longer curve and shorter than the two
    together. *)
Theorem alignment_path_inside (f0_1 f0_2 : list F64) :
  f0_1 <> [] -> f0_2 <> [] ->
  Forall (regular_frame lg) f0_1 -> Forall (regular_frame lg) f0_2 ->
  (Z.of_nat (List.length f0_1 + List.length f0_2) <= max_frames)%Z ->
  exists wp D,
    align_with_dtw lg f0_1 f0_2 = Ok (wp, D) /\
    (forall i j, In (i, j) wp ->
       (i < List.length f0_1)%nat /\ (j < List.length f0_2)%nat) /\
    (List.length f0_1 <= List.length wp)%nat /\
    (List.length f0_2 <= List.length wp)%nat /\
    (List.length wp < List.length f0_1 + List.length f0_2)%nat.
Proof.
  intros H1 H2 R1 R2 Hr.
  destruct (align_with_dtw_path lg f0_1 f0_2 H1 H2 R1 R2 Hr)
    as (wp & D & E & Hh & Hl & Hs).
  exists wp, D. split; [exact E|].
  destruct wp as [|p l]; [discriminate|]. injection Hh as ->.
  assert (N1 : (0 < List.length f0_1)%nat) by (destruct f0_1; simpl; [congruence|lia]).
  assert (N2 : (0 < List.length f0_2)%nat) by (destruct f0_2; simpl; [congruence|lia]).
  split.
  - intros i j Hin.
    destruct (backward_path_inside l _ Hs (i, j) Hin) as [A B].
    simpl in A, B. lia.
  - destruct (backward_path_length l _ Hs Hl) as (A & B & C).
    simpl in A, B, C. simpl List.length. lia.
Qed.

(** X2.  For two non-empty curves without a frame of 0 Hz or +inf, every
    frame of either curve is aligned with at least one frame of the
    other. *)
Theorem alignment_path_covers (f0_1 f0_2 : list F64) :
  f0_1 <> [] -> f0_2 <> [] ->
  Forall (regular_frame lg) f0_1 -> Forall (regular_frame lg) f0_2 ->
  (Z.of_nat (List.length f0_1 + List.length f0_2) <= max_frames)%Z ->
  exists wp D,
    align_with_dtw lg f0_1 f0_2 = Ok (wp, D) /\
    (forall i, (i < List.length f0_1)%nat -> exists j, In (i, j) wp) /\
    (forall j, (j < List.length f0_2)%nat -> exists i, In (i, j) wp).
Proof.
  intros H1 H2 R1 R2 Hr.
  destruct (align_with_dtw_path lg f0_1 f0_2 H1 H2 R1 R2 Hr)
    as (wp & D & E & Hh & Hl & Hs).
  exists wp, D. split; [exact E|].
  destruct wp as [|p l]; [discriminate|]. injection Hh as ->.
  destruct (backward_path_covers l _ Hs Hl) as [Hi Hj]. simpl in Hi, Hj.
  split; [intros i Hk; apply Hi | intros j Hk; apply Hj]; lia.
Qed.

End Path_shape.

Lemma alignment_path_inside_witness :
  [Fin 440; Fin 880; Fin 660] <> [] /\ [Fin 450; NaN] <> [] /\
  exists wp D,
    align_with_dtw log2_linear [Fin 440; Fin 880; Fin 660] [Fin 450; NaN]
    = Ok (wp, D) /\
    (3 <= List.length wp < 5)%nat.
Proof.
  split; [discriminate|]. split; [discriminate|].
  destruct (alignment_path_inside log2_linear
              [Fin 440; Fin 880; Fin 660] [Fin 450; NaN]
              ltac:(discriminate) ltac:(discriminate)
              ltac:(regular_frames) ltac:(regular_frames)
              ltac:(frames_room))
    as (wp & D & E & _ & A & _ & B).
  exists wp, D. split; [exact E|]. simpl in A, B. lia.
Defined.

Lemma alignment_path_covers_witness :
  [Fin 440; Fin 880; Fin 660] <> [] /\ [Fin 450; NaN] <> [] /\
  exists wp D,
    align_with_dtw log2_linear [Fin 440; Fin 880; Fin 660] [Fin 450; NaN]
    = Ok (wp, D) /\
    exists j, In (1, j)%nat wp.
Proof.
  split; [discriminate|]. split; [discriminate|].
  destruct (alignment_path_covers log2_linear
              [Fin 440; Fin 880; Fin 660] [Fin 450; NaN]
              ltac:(discriminate) ltac:(discriminate)
              ltac:(regular_frames) ltac:(regular_frames)
              ltac:(frames_room))
    as (wp & D & E & Hi & _).
  exists wp, D. split; [exact E|]. apply Hi. simpl. lia.
Defined.

(** ** Accumulated cost and path cost *)

Lemma D_at_cells (cells : list (list (F64 * nat))) (i j : nat) :
  nth j (nth i (map (map fst) cells) []) PosInf = fst (cell_at cells i j).
Proof.
  unfold cell_at.
  rewrite <- (map_nth fst (nth i cells []) (PosInf, 0%nat) j).
  rewrite <- (map_nth (map fst) cells [] i). reflexivity.
Qed.

Section Bellman.

Variable C : list (list F64).
Variable M : nat.
Variable c00 : F64.
Variable K : Q.

Hypothesis C_rows : Forall (fun r => List.length r = M) C.

Hypothesis C_finite :
  forall i j, (i < List.length C)%nat -> (j < M)%nat ->
    exists q, cost_at C i j = Fin q /\ 0 <= q /\ q <= K.

Hypothesis c00_origin : c00 = cost_at C 0 0.

Hypothesis K_nonneg : 0 <= K.

Hypothesis costs_room : frames_cost K (List.length C + M) < overflow_threshold.

Let cells := accu_cost C (repeat PosInf (S M)) (c00, 0%nat).

(** Each accumulated cost is the local cost plus the accumulated cost of the
    predecessor that the recorded step names, and no in-range predecessor
    would have given less. *)
Lemma cells_bellman (i j : nat) :
  (i < List.length C)%nat -> (j < M)%nat ->
  exists v k c,
    cell_at cells i j = (Fin v, k) /\ cost_at C i j = Fin c /\
    (i = 0%nat -> j = 0%nat -> v = c) /\
    (forall i' j', backward_step (i, j) (i', j') ->
       exists p k', cell_at cells i' j' = (Fin p, k') /\ v <= p + c) /\
    (~ (i = 0 /\ j = 0)%nat ->
       exists i' j' p k',
         step_back (i, j) k = Some (i', j') /\
         cell_at cells i' j' = (Fin p, k') /\ v = p + c).
Proof.
  intros Hi Hj.
  assert (F := cells_finite C M c00 K C_rows C_finite c00_origin K_nonneg
                 costs_room).
  fold cells in F.
  assert (Room := cell_room C M K K_nonneg costs_room i j Hi Hj).
  assert (R := cells_recurrence C M c00 C_rows i j Hi Hj). fold cells in R.
  destruct (C_finite i j Hi Hj) as (c & Ec & Hc & HcK). rewrite Ec in R.
  destruct i as [|i], j as [|j]; simpl padded_at in R.
  - rewrite c00_origin, Ec, accu_cell_origin in R.
    exists c, 0%nat, c. split; [exact R|]. split; [exact Ec|].
    split; [reflexivity|]. split.
    + intros i' j' [H|[H|H]]; discriminate.
    + intros H. exfalso. apply H. split; reflexivity.
  - destruct (F 0%nat j Hi ltac:(lia)) as (l & kl & El & Hl & _ & _ & _ & Bl).
    rewrite El in R. simpl fst in R.
    change (0 + S j)%nat with (S (0 + j)) in Room.
    assert (B1 := frames_cost_succ K (S (0 + j))).
    rewrite accu_cell_first_row in R by lra.
    exists (l + c), 1%nat, c. split; [exact R|]. split; [exact Ec|].
    split; [discriminate|]. split.
    + intros i' j' [H|[H|H]]; try discriminate.
      injection H as <- <-. exists l, kl. split; [exact El | lra].
    + intros _. exists 0%nat, j, l, kl. rewrite step_back_left.
      repeat split. exact El.
  - destruct (F i 0%nat ltac:(lia) Hj) as (u & ku & Eu & Hu & _ & _ & _ & Bu).
    rewrite Eu in R. simpl fst in R.
    change (S i + 0)%nat with (S (i + 0)) in Room.
    assert (B1 := frames_cost_succ K (S (i + 0))).
    rewrite accu_cell_first_column in R by lra.
    exists (u + c), 2%nat, c. split; [exact R|]. split; [exact Ec|].
    split; [discriminate|]. split.
    + intros i' j' [H|[H|H]]; try discriminate.
      injection H as <- <-. exists u, ku. split; [exact Eu | lra].
    + intros _. exists i, 0%nat, u, ku. rewrite step_back_up.
      repeat split. exact Eu.
  - destruct (F i j ltac:(lia) ltac:(lia))
      as (d & kd & Ed & Hd & _ & _ & _ & Bd).
    destruct (F (S i) j Hi ltac:(lia)) as (l & kl & El & Hl & _ & _ & _ & Bl).
    destruct (F i (S j) ltac:(lia) Hj) as (u & ku & Eu & Hu & _ & _ & _ & Bu).
    rewrite Ed, El, Eu in R. simpl fst in R.
    replace (S i + S j)%nat with (S (S (i + j))) in Room by lia.
    replace (S i + j)%nat with (S (i + j)) in Bl by lia.
    replace (i + S j)%nat with (S (i + j)) in Bu by lia.
    assert (B1 := frames_cost_succ K (S (S (i + j)))).
    assert (B2 := frames_cost_succ K (S (i + j))).
    destruct (accu_cell_inner c d l u)
      as (v & k & E & _ & _ & Vd & Vl & Vu & Hk); try assumption; try lra.
    rewrite E in R.
    exists v, k, c. split; [exact R|]. split; [exact Ec|].
    split; [discriminate|]. split.
    + intros i' j' [H|[H|H]]; injection H as <- <-.
      * exists u, ku. split; [exact Eu | exact Vu].
      * exists l, kl. split; [exact El | exact Vl].
      * exists d, kd. split; [exact Ed | exact Vd].
    + intros _. destruct Hk as [[-> ->]|[[-> ->]|[-> ->]]].
      * exists i, j, d, kd. rewrite step_back_diagonal. repeat split. exact Ed.
      * exists (S i), j, l, kl. rewrite step_back_left. repeat split. exact El.
      * exists i, (S j), u, ku. rewrite step_back_up. repeat split. exact Eu.
Qed.

(** No path from a cell back to the origin costs less than the accumulated
    cost of the cell. *)
Lemma path_cost_lower (l : list (nat * nat)) :
  forall i j,
    (i < List.length C)%nat -> (j < M)%nat ->
    stepwise backward_step ((i, j) :: l) ->
    last ((i, j) :: l) (0, 0)%nat = (0, 0)%nat ->
    exists v k s,
      cell_at cells i j = (Fin v, k) /\
      path_cost C ((i, j) :: l) = Fin s /\ v <= s.
Proof.
  induction l as [|[i' j'] l IH]; intros i j Hi Hj S L.
  - simpl in L. injection L as -> ->.
    destruct (cells_bellman 0 0 Hi Hj) as (v & k & c & E & Ec & H0 & _).
    exists v, k, (c + 0). split; [exact E|]. split.
    + simpl. now rewrite Ec.
    + rewrite (H0 eq_refl eq_refl). lra.
  - destruct S as [R S].
    change (last ((i, j) :: (i', j') :: l) (0, 0)%nat)
      with (last ((i', j') :: l) (0, 0)%nat) in L.
    assert (B := backward_step_le _ _ R). simpl in B.
    destruct (IH i' j' ltac:(lia) ltac:(lia) S L) as (p & kp & s & Ep & Es & Hp).
    destruct (cells_bellman i j Hi Hj) as (v & k & c & E & Ec & _ & Hmin & _).
    destruct (Hmin i' j' R) as (p' & kp' & Ep' & Hv).
    rewrite Ep in Ep'. injection Ep' as <- <-.
    exists v, k, (c + s). split; [exact E|]. split.
    + change (path_cost C ((i, j) :: (i', j') :: l))
        with (fadd (cost_at C i j) (path_cost C ((i', j') :: l))).
      now rewrite Ec, Es.
    + lra.
Qed.

(** Along the backtracked path the local costs add up to the accumulated
    cost of the starting cell. *)
Lemma path_cost_backtrack (fuel : nat) :
  forall i j,
    (i < List.length C)%nat -> (j < M)%nat -> (i + j <= fuel)%nat ->
    exists v k s,
      cell_at cells i j = (Fin v, k) /\
      path_cost C ((i, j) :: backtrack_loop fuel (map (map snd) cells) (i, j))
      = Fin s /\
      v == s.
Proof.
  induction fuel as [|fuel IH]; intros i j Hi Hj Hf.
  - assert (i = 0%nat) by lia. assert (j = 0%nat) by lia. subst i j.
    destruct (cells_bellman 0 0 Hi Hj) as (v & k & c & E & Ec & H0 & _).
    exists v, k, (c + 0). split; [exact E|]. split.
    + simpl. now rewrite Ec.
    + rewrite (H0 eq_refl eq_refl). lra.
  - destruct (cells_bellman i j Hi Hj) as (v & k & c & E & Ec & H0 & _ & Hs).
    simpl backtrack_loop. destruct (is_origin (i, j)) eqn:O.
    + apply is_origin_true in O. injection O as -> ->.
      exists v, k, (c + 0). split; [exact E|]. split.
      * simpl. now rewrite Ec.
      * rewrite (H0 eq_refl eq_refl). lra.
    + destruct Hs as (i' & j' & p & kp & Eb & Ep & Hv).
      { intros [-> ->]. discriminate. }
      rewrite steps_at_cells, E. simpl snd. rewrite Eb.
      assert (Hk : (k <= 2)%nat).
      { destruct (cells_finite C M c00 K C_rows C_finite c00_origin K_nonneg
                    costs_room i j Hi Hj)
          as (v' & k' & E' & _ & Hk & _).
        fold cells in E'. rewrite E in E'. now injection E' as _ <-. }
      assert (B : (i' <= i)%nat /\ (j' <= j)%nat /\ (i' + j' < i + j)%nat).
      { clear - Eb Hk. unfold step_back in Eb.
        destruct k as [|[|[|k]]]; simpl in Eb; [| | |lia].
        - destruct i as [|i]; [discriminate|].
          destruct j as [|j]; [discriminate|].
          simpl in Eb. injection Eb as <- <-. lia.
        - destruct j as [|j]; [discriminate|].
          simpl in Eb. injection Eb as <- <-. lia.
        - destruct i as [|i]; [discriminate|].
          simpl in Eb. injection Eb as <- <-. lia. }
      destruct (IH i' j') as (p2 & kp2 & s & Ep2 & Es & Hp); try lia.
      rewrite Ep in Ep2. injection Ep2 as <- <-.
      exists v, k, (c + s). split; [reflexivity|]. split.
      * change (path_cost C ((i, j) :: (i', j') :: ?l))
          with (fadd (cost_at C i j) (path_cost C ((i', j') :: l))).
        now rewrite Ec, Es.
      * rewrite Hv, Hp. ring.
Qed.

End Bellman.

(** The result of [dtw] on two non-empty sequences of numbers of the
    magnitude of cents, in full. *)
Lemma dtw_finite_result (xs ys : list Q) :
  xs <> [] -> ys <> [] ->
  Forall (fun q => Qabs q <= cents_limit) xs ->
  Forall (fun q => Qabs q <= cents_limit) ys ->
  (Z.of_nat (List.length xs + List.length ys) <= max_frames)%Z ->
  let C := cdist (map Fin xs) (map Fin ys) in
  let cells :=
    accu_cost C (repeat PosInf (S (List.length ys))) (cost_at C 0 0, 0%nat) in
  dtw (map Fin xs) (map Fin ys)
  = Ok (map (map fst) cells, dtw_backtracking (map (map snd) cells)) /\
  dtw_backtracking (map (map snd) cells)
  = (List.length xs - 1, List.length ys - 1)%nat
    :: backtrack_loop ((List.length xs - 1) + (List.length ys - 1))
         (map (map snd) cells) (List.length xs - 1, List.length ys - 1)%nat.
Proof.
  intros Hx Hy Bx By Hr C cells.
  destruct (dtw_finite xs ys Hx Hy Bx By Hr) as (D & wp & E & W & _ & L & _).
  destruct (dtw_C_origin xs ys Hx Hy) as (row & rest & EC).
  destruct (dtw_steps_shape xs ys Hx Hy) as [Ls Lh].
  cbv zeta in EC, W, Ls, Lh.
  fold C in EC, W, Ls, Lh. fold cells in W, Ls, Lh.
  split.
  - rewrite (dtw_run _ _ (cost_at C 0 0) row rest);
      [|apply cdist_no_nan | exact EC].
    cbv zeta. rewrite length_map. fold C. fold cells.
    rewrite <- W, L. reflexivity.
  - unfold dtw_backtracking. rewrite Ls, Lh. reflexivity.
Qed.

Section Path_cost.

Variable lg : Q -> Q.

(** X3.  For two non-empty curves without a frame of 0 Hz or +inf, the
    accumulated cost that the aligner returns in the last cell of [D] is the
    sum of the local costs [|cents1[i] - cents2[j]|], taken on the
    zero-filled cents, along the path it returns. *)
Theorem alignment_cost_of_path (f0_1 f0_2 : list F64) :
  f0_1 <> [] -> f0_2 <> [] ->
  Forall (regular_frame lg) f0_1 -> Forall (regular_frame lg) f0_2 ->
  (Z.of_nat (List.length f0_1 + List.length f0_2) <= max_frames)%Z ->
  let cents1_filled :=
    map (nan_to_num 0) (hz_to_cents lg f0_1 ref_hz_default) in
  let cents2_filled :=
    map (nan_to_num 0) (hz_to_cents lg f0_2 ref_hz_default) in
  exists wp D v s,
    align_with_dtw lg f0_1 f0_2 = Ok (wp, D) /\
    nth (List.length f0_2 - 1) (nth (List.length f0_1 - 1) D []) PosInf
    = Fin v /\
    path_cost (cdist cents1_filled cents2_filled) wp = Fin s /\
    v == s.
Proof.
  intros H1 H2 R1 R2 Hr c1 c2. unfold c1, c2, align_with_dtw. cbv zeta.
  rewrite !filled_finite.
  assert (B1 := filled_cents lg f0_1 R1).
  assert (B2 := filled_cents lg f0_2 R2).
  set (xs := map (fun x => finite_value (nan_to_num 0 x))
               (hz_to_cents lg f0_1 ref_hz_default)) in *.
  set (ys := map (fun x => finite_value (nan_to_num 0 x))
               (hz_to_cents lg f0_2 ref_hz_default)) in *.
  assert (L1 : List.length xs = List.length f0_1).
  { unfold xs. now rewrite length_map, hz_to_cents_length. }
  assert (L2 : List.length ys = List.length f0_2).
  { unfold ys. now rewrite length_map, hz_to_cents_length. }
  assert (X1 : xs <> []).
  { intro E. rewrite E in L1. destruct f0_1; [congruence | discriminate]. }
  assert (X2 : ys <> []).
  { intro E. rewrite E in L2. destruct f0_2; [congruence | discriminate]. }
  rewrite <- L1, <- L2 in Hr.
  destruct (dtw_sizes xs ys X1 X2) as [N1 N2]. cbv zeta in N1, N2.
  destruct (dtw_finite_result xs ys X1 X2 B1 B2 Hr) as [E W].
  set (C := cdist (map Fin xs) (map Fin ys)) in *.
  set (cells := accu_cost C (repeat PosInf (S (List.length ys)))
                  (cost_at C 0 0, 0%nat)) in *.
  destruct (path_cost_backtrack C (List.length ys) (cost_at C 0 0)
              cost_limit (dtw_C_rows xs ys) (dtw_C_finite xs ys B1 B2)
              eq_refl (proj1 cost_limit_room) (dtw_costs_room xs ys Hr)
              ((List.length xs - 1) + (List.length ys - 1))
              (List.length xs - 1) (List.length ys - 1))
    as (v & k & s & Ev & Es & Hv).
  { unfold C. rewrite dtw_C_length. lia. }
  { lia. }
  { lia. }
  fold cells in Ev, Es. rewrite <- W in Es.
  exists (dtw_backtracking (map (map snd) cells)), (map (map fst) cells), v, s.
  rewrite E. split; [reflexivity|]. split.
  - rewrite <- L1, <- L2, D_at_cells, Ev. reflexivity.
  - split; [exact Es | exact Hv].
Qed.

(** X4.  For two non-empty curves without a frame of 0 Hz or +inf, the path
    that the aligner returns is a cheapest one: no sequence of pairs that
    starts at the last pair of frames, ends at the first and moves back by
    the three steps has a smaller sum of local costs. *)
Theorem alignment_path_optimal (f0_1 f0_2 : list F64) :
  f0_1 <> [] -> f0_2 <> [] ->
  Forall (regular_frame lg) f0_1 -> Forall (regular_frame lg) f0_2 ->
  (Z.of_nat (List.length f0_1 + List.length f0_2) <= max_frames)%Z ->
  let cents1_filled :=
    map (nan_to_num 0) (hz_to_cents lg f0_1 ref_hz_default) in
  let cents2_filled :=
    map (nan_to_num 0) (hz_to_cents lg f0_2 ref_hz_default) in
  exists wp D s,
    align_with_dtw lg f0_1 f0_2 = Ok (wp, D) /\
    path_cost (cdist cents1_filled cents2_filled) wp = Fin s /\
    forall p,
      hd_error p = Some (List.length f0_1 - 1, List.length f0_2 - 1)%nat ->
      last p (0, 0)%nat = (0, 0)%nat ->
      stepwise backward_step p ->
      exists s',
        path_cost (cdist cents1_filled cents2_filled) p = Fin s' /\ s <= s'.
Proof.
  intros H1 H2 R1 R2 Hr c1 c2. unfold c1, c2, align_with_dtw. cbv zeta.
  rewrite !filled_finite.
  assert (B1 := filled_cents lg f0_1 R1).
  assert (B2 := filled_cents lg f0_2 R2).
  set (xs := map (fun x => finite_value (nan_to_num 0 x))
               (hz_to_cents lg f0_1 ref_hz_default)) in *.
  set (ys := map (fun x => finite_value (nan_to_num 0 x))
               (hz_to_cents lg f0_2 ref_hz_default)) in *.
  assert (L1 : List.length xs = List.length f0_1).
  { unfold xs. now rewrite length_map, hz_to_cents_length. }
  assert (L2 : List.length ys = List.length f0_2).
  { unfold ys. now rewrite length_map, hz_to_cents_length. }
  assert (X1 : xs <> []).
  { intro E. rewrite E in L1. destruct f0_1; [congruence | discriminate]. }
  assert (X2 : ys <> []).
  { intro E. rewrite E in L2. destruct f0_2; [congruence | discriminate]. }
  rewrite <- L1, <- L2 in Hr.
  destruct (dtw_sizes xs ys X1 X2) as [N1 N2]. cbv zeta in N1, N2.
  destruct (dtw_finite_result xs ys X1 X2 B1 B2 Hr) as [E W].
  set (C := cdist (map Fin xs) (map Fin ys)) in *.
  set (cells := accu_cost C (repeat PosInf (S (List.length ys)))
                  (cost_at C 0 0, 0%nat)) in *.
  assert (LC : List.length C = List.length xs) by apply dtw_C_length.
  destruct (path_cost_backtrack C (List.length ys) (cost_at C 0 0)
              cost_limit (dtw_C_rows xs ys) (dtw_C_finite xs ys B1 B2)
              eq_refl (proj1 cost_limit_room) (dtw_costs_room xs ys Hr)
              ((List.length xs - 1) + (List.length ys - 1))
              (List.length xs - 1) (List.length ys - 1))
    as (v & k & s & Ev & Es & Hv); try lia.
  fold cells in Ev, Es. rewrite <- W in Es.
  exists (dtw_backtracking (map (map snd) cells)), (map (map fst) cells), s.
  rewrite E. split; [reflexivity|]. split; [exact Es|].
  intros p Hh Hl Hs. destruct p as [|p0 l]; [discriminate|].
  injection Hh as ->. rewrite <- L1, <- L2 in Hl, Hs |- *.
  destruct (path_cost_lower C (List.length ys) (cost_at C 0 0)
              cost_limit (dtw_C_rows xs ys) (dtw_C_finite xs ys B1 B2)
              eq_refl (proj1 cost_limit_room) (dtw_costs_room xs ys Hr)
              l (List.length xs - 1) (List.length ys - 1))%nat
    as (v' & k' & s' & Ev' & Es' & Hv'); try lia; try assumption.
  fold cells in Ev'. rewrite Ev in Ev'. injection Ev' as <- <-.
  exists s'. split; [exact Es'|]. lra.
Qed.

End Path_cost.

Lemma alignment_cost_of_path_witness :
  [Fin 440; Fin 880] <> [] /\ [Fin 450; NaN; Fin 900] <> [] /\
  exists wp D v s,
    align_with_dtw log2_linear [Fin 440; Fin 880] [Fin 450; NaN; Fin 900]
    = Ok (wp, D) /\
    nth 2 (nth 1 D []) PosInf = Fin v /\
    v == s.
Proof.
  split; [discriminate|]. split; [discriminate|].
  destruct (alignment_cost_of_path log2_linear
              [Fin 440; Fin 880] [Fin 450; NaN; Fin 900]
              ltac:(discriminate) ltac:(discriminate)
              ltac:(regular_frames) ltac:(regular_frames)
              ltac:(frames_room))
    as (wp & D & v & s & E & Ev & _ & Hv).
  exists wp, D, v, s. repeat split; assumption.
Defined.

Lemma alignment_path_optimal_witness :
  [Fin 440; Fin 880] <> [] /\ [Fin 450; NaN; Fin 900] <> [] /\
  exists wp D,
    align_with_dtw log2_linear [Fin 440; Fin 880] [Fin 450; NaN; Fin 900]
    = Ok (wp, D).
Proof.
  split; [discriminate|]. split; [discriminate|].
  destruct (alignment_path_optimal log2_linear
              [Fin 440; Fin 880] [Fin 450; NaN; Fin 900]
              ltac:(discriminate) ltac:(discriminate)
              ltac:(regular_frames) ltac:(regular_frames)
              ltac:(frames_room))
    as (wp & D & s & E & _).
  exists wp, D. exact E.
Defined.

(** ** Reading the curves along a path *)

Lemma take_inside {A : Type} (a : list A) (idx : list nat) :
  (forall i, In i idx -> (i < List.length a)%nat) ->
  exists xs, take a idx = Ok xs /\ List.length xs = List.length idx.
Proof.
  induction idx as [|i idx IH]; intro H.
  - exists []. split; reflexivity.
  - destruct IH as (xs & E & L); [intros k Hk; apply H; now right|].
    destruct (nth_error a i) as [x|] eqn:Ex.
    + exists (x :: xs). simpl. unfold getitem. rewrite Ex. simpl.
      rewrite E. simpl. split; [reflexivity | now rewrite L].
    + apply nth_error_None in Ex. specialize (H i (or_introl eq_refl)). lia.
Qed.

Lemma bind_ok {A B : Type} (r : result A) (k : A -> result B) (y : B) :
  bind r k = Ok y -> exists x, r = Ok x /\ k x = Ok y.
Proof. destruct r as [x|e]; simpl; [eauto | discriminate]. Qed.

Lemma take_length {A : Type} (a : list A) (idx : list nat) (xs : list A) :
  take a idx = Ok xs -> List.length xs = List.length idx.
Proof.
  revert xs. induction idx as [|i idx IH]; intros xs H.
  - injection H as <-. reflexivity.
  - change (take a (i :: idx))
      with (x <- getitem a i ;; ys <- take a idx ;; Ok (x :: ys)) in H.
    apply bind_ok in H. destruct H as (x & _ & H).
    apply bind_ok in H. destruct H as (ys & E & H).
    injection H as <-. simpl. f_equal. now apply IH.
Qed.

Section Reading.

Variable lg : Q -> Q.

Lemma calculate_pitch_diff_length (f0_1 f0_2 : list F64)
  (wp : list (nat * nat)) (diffs : list F64) :
  calculate_pitch_diff lg f0_1 f0_2 wp = Ok diffs ->
  List.length diffs = List.length wp.
Proof.
  revert diffs. induction wp as [|[i j] wp IH]; intros diffs H.
  - injection H as <-. reflexivity.
  - change (calculate_pitch_diff lg f0_1 f0_2 ((i, j) :: wp))
      with (a <- getitem f0_1 i ;;
            diff <- (if isnan a then Ok NaN
                     else b <- getitem f0_2 j ;;
                          (if isnan b then Ok NaN
                           else Ok (fmul (Fin 1200)
                                      (np_log2 lg (fdiv b a))))) ;;
            ds <- calculate_pitch_diff lg f0_1 f0_2 wp ;;
            Ok (diff :: ds)) in H.
    apply bind_ok in H. destruct H as (a & _ & H).
    apply bind_ok in H. destruct H as (d & _ & H).
    apply bind_ok in H. destruct H as (ds & E & H).
    injection H as <-. simpl. f_equal. now apply IH.
Qed.

Lemma calculate_pitch_diff_ok (f0_1 f0_2 : list F64) (wp : list (nat * nat)) :
  (forall i j, In (i, j) wp ->
     (i < List.length f0_1)%nat /\ (j < List.length f0_2)%nat) ->
  exists diffs, calculate_pitch_diff lg f0_1 f0_2 wp = Ok diffs.
Proof.
  induction wp as [|[i j] wp IH]; intro H; [now exists []|].
  destruct IH as (ds & E); [intros i' j' K; apply H; now right|].
  destruct (H i j (or_introl eq_refl)) as [Hi Hj].
  destruct (nth_error f0_1 i) as [a|] eqn:Ea;
    [|apply nth_error_None in Ea; lia].
  destruct (nth_error f0_2 j) as [b|] eqn:Eb;
    [|apply nth_error_None in Eb; lia].
  rewrite (calculate_pitch_diff_cons lg _ _ _ _ _ _ _ Ea Eb), E.
  eexists. reflexivity.
Qed.

(** X7.  [calculate_pitch_diff] either returns or raises [IndexError], and it
    raises exactly when some pair of the path has its first index outside
    the first curve, or has its second index outside the second curve while
    the frame of the first curve is not NaN: the second curve is not read
    at a pair whose first frame is NaN. *)
Theorem calculate_pitch_diff_raises (f0_1 f0_2 : list F64)
  (wp : list (nat * nat)) :
  ((exists diffs, calculate_pitch_diff lg f0_1 f0_2 wp = Ok diffs) \/
   calculate_pitch_diff lg f0_1 f0_2 wp = Raise IndexError) /\
  (calculate_pitch_diff lg f0_1 f0_2 wp = Raise IndexError <->
   exists i j,
     In (i, j) wp /\
     ((List.length f0_1 <= i)%nat \/
      exists a, nth_error f0_1 i = Some a /\ isnan a = false /\
                (List.length f0_2 <= j)%nat)).
Proof.
  induction wp as [|[i j] wp [IHt IHr]].
  - split; [left; now exists []|]. split; [discriminate|].
    intros (i & j & [] & _).
  - simpl calculate_pitch_diff. unfold getitem.
    destruct (nth_error f0_1 i) as [a|] eqn:Ea; simpl.
    + assert (Rest :
        (exists i0 j0, In (i0, j0) ((i, j) :: wp) /\
           ((List.length f0_1 <= i0)%nat \/
            exists a0, nth_error f0_1 i0 = Some a0 /\ isnan a0 = false /\
                       (List.length f0_2 <= j0)%nat)) <->
        ((isnan a = false /\ (List.length f0_2 <= j)%nat) \/
         calculate_pitch_diff lg f0_1 f0_2 wp = Raise IndexError)).
      { rewrite IHr. split.
        - intros (i0 & j0 & [K|K] & Hbad).
          + injection K as <- <-. left. destruct Hbad as [Hbad|Hbad].
            * assert (nth_error f0_1 i = None) by now apply nth_error_None.
              congruence.
            * destruct Hbad as (a0 & E0 & Hn & Hj).
              rewrite Ea in E0. injection E0 as <-. now split.
          + right. now exists i0, j0.
        - intros [[Hn Hj]|(i0 & j0 & K & Hbad)].
          + exists i, j. split; [now left|]. right. now exists a.
          + exists i0, j0. split; [now right | exact Hbad]. }
      rewrite Rest. clear Rest.
      destruct (isnan a) eqn:Na; simpl.
      * destruct (calculate_pitch_diff lg f0_1 f0_2 wp) as [ds|e]; simpl.
        -- split; [left; eexists; reflexivity|].
           split; [discriminate|]. intros [[K _]|K]; discriminate.
        -- destruct IHt as [(ds & K)|K]; [discriminate|].
           injection K as ->. split; [now right|].
           split; [intros _; now right | reflexivity].
      * destruct (nth_error f0_2 j) as [b|] eqn:Eb; simpl.
        -- assert (Hj : ~ (List.length f0_2 <= j)%nat).
           { intro K. apply nth_error_None in K. congruence. }
           assert (Tail :
             forall d,
               ((exists diffs,
                   (diffs0 <- calculate_pitch_diff lg f0_1 f0_2 wp ;;
                    Ok (d :: diffs0)) = Ok diffs) \/
                (diffs0 <- calculate_pitch_diff lg f0_1 f0_2 wp ;;
                 Ok (d :: diffs0)) = Raise IndexError) /\
               ((diffs0 <- calculate_pitch_diff lg f0_1 f0_2 wp ;;
                 Ok (d :: diffs0)) = Raise IndexError <->
                (false = false /\ (List.length f0_2 <= j)%nat) \/
                calculate_pitch_diff lg f0_1 f0_2 wp = Raise IndexError)).
           { intro d.
             destruct (calculate_pitch_diff lg f0_1 f0_2 wp) as [ds|e]; simpl.
             - split; [left; eexists; reflexivity|].
               split; [discriminate|]. intros [[_ K]|K]; [tauto|discriminate].
             - destruct IHt as [(ds & K)|K]; [discriminate|].
               injection K as ->. split; [now right|].
               split; [intros _; now right | reflexivity]. }
           destruct (isnan b); simpl; apply Tail.
        -- split; [now right|].
           split; [|reflexivity]. intros _. left. split; [reflexivity|].
           now apply nth_error_None.
    + split; [now right|]. split; [|reflexivity].
      intros _. exists i, j. split; [now left|]. left.
      now apply nth_error_None.
Qed.

End Reading.

(** ** From the curves to the report *)

Lemma last_item_ok {A : Type} (a : list A) :
  a <> [] -> exists x, last_item a = Ok x.
Proof.
  intro H. unfold last_item, getitem.
  destruct (nth_error a (List.length a - 1)) as [x|] eqn:E;
    [now exists x|].
  apply nth_error_None in E. destruct a; [congruence | simpl in E; lia].
Qed.

(** The colour of a deviation that is not NaN names its tier. *)
Lemma point_color_tier (d : F64) :
  isnan d = false ->
  (point_color d = "green"%string /\ is_accurate d = true /\
   is_slightly_off d = false /\ is_seriously_off d = false) \/
  (point_color d = "orange"%string /\ is_accurate d = false /\
   is_slightly_off d = true /\ is_seriously_off d = false) \/
  (point_color d = "red"%string /\ is_accurate d = false /\
   is_slightly_off d = false /\ is_seriously_off d = true).
Proof.
  destruct d as [| | |q]; intro Hn; [discriminate| | |].
  - right. right. repeat split.
  - right. right. repeat split.
  - unfold point_color, is_accurate, is_slightly_off, is_seriously_off.
    simpl.
    destruct (Qltb (Qabs q) 25) eqn:E25;
      [apply Qltb_true in E25 | apply Qltb_false in E25];
      (destruct (Qltb (Qabs q) 50) eqn:E50;
         [apply Qltb_true in E50 | apply Qltb_false in E50]);
      (destruct (Qle_bool 25 (Qabs q)) eqn:L25;
         [apply Qle_bool_iff in L25
         | assert (~ 25 <= Qabs q)
             by (rewrite <- Qle_bool_iff; congruence)]);
      (destruct (Qle_bool 50 (Qabs q)) eqn:L50;
         [apply Qle_bool_iff in L50
         | assert (~ 50 <= Qabs q)
             by (rewrite <- Qle_bool_iff; congruence)]);
      try (exfalso; lra); simpl;
      first [ left; repeat split; fail
            | right; left; repeat split; fail
            | right; right; repeat split; fail ].
Qed.

Lemma valid_cons (d : F64) (l : list F64) :
  valid (d :: l) = if isnan d then valid l else d :: valid l.
Proof. unfold valid. simpl. destruct (isnan d); reflexivity. Qed.

(** The colours of a deviation series against its tier counts. *)
Lemma colors_count (diffs : list F64) :
  count_occ string_dec (map point_color diffs) "green"%string
  = count is_accurate (valid diffs) /\
  count_occ string_dec (map point_color diffs) "orange"%string
  = count is_slightly_off (valid diffs) /\
  count_occ string_dec (map point_color diffs) "red"%string
  = count is_seriously_off (valid diffs) /\
  (count_occ string_dec (map point_color diffs) "gray"%string
   + List.length (valid diffs) = List.length diffs)%nat.
Proof.
  induction diffs as [|d diffs (G & O & R & Y)]; [repeat split|].
  change (map point_color (d :: diffs))
    with (point_color d :: map point_color diffs).
  rewrite valid_cons. destruct (isnan d) eqn:Hn.
  - assert (Hc : point_color d = "gray"%string)
      by (unfold point_color; now rewrite Hn).
    rewrite Hc.
    rewrite (count_occ_cons_eq _ _ (eq_refl "gray"%string)).
    rewrite !count_occ_cons_neq by discriminate.
    simpl List.length. repeat split; try assumption. lia.
  - rewrite !count_cons. simpl List.length.
    destruct (point_color_tier d Hn)
      as [(Hc & Ha & Hs & Hr)|[(Hc & Ha & Hs & Hr)|(Hc & Ha & Hs & Hr)]];
      rewrite Hc, Ha, Hs, Hr;
      rewrite (count_occ_cons_eq _ _ (eq_refl _));
      rewrite !count_occ_cons_neq by discriminate;
      simpl Nat.b2n; repeat split; try assumption; lia.
Qed.

Section Pipeline.

Variable lg : Q -> Q.

(** The aligner's path stays inside the two curves. *)
Lemma align_with_dtw_indices (f0_1 f0_2 : list F64) :
  f0_1 <> [] -> f0_2 <> [] ->
  Forall (regular_frame lg) f0_1 -> Forall (regular_frame lg) f0_2 ->
  (Z.of_nat (List.length f0_1 + List.length f0_2) <= max_frames)%Z ->
  exists wp D,
    align_with_dtw lg f0_1 f0_2 = Ok (wp, D) /\
    forall i j, In (i, j) wp ->
      (i < List.length f0_1)%nat /\ (j < List.length f0_2)%nat.
Proof.
  intros H1 H2 R1 R2 Hr.
  destruct (align_with_dtw_path lg f0_1 f0_2 H1 H2 R1 R2 Hr)
    as (wp & D & E & Hh & Hl & Hs).
  exists wp, D. split; [exact E|].
  destruct wp as [|p l]; [discriminate|]. injection Hh as ->.
  assert (N1 : (0 < List.length f0_1)%nat)
    by (destruct f0_1; simpl; [congruence|lia]).
  assert (N2 : (0 < List.length f0_2)%nat)
    by (destruct f0_2; simpl; [congruence|lia]).
  intros i j Hin.
  destruct (backward_path_inside l _ Hs (i, j) Hin) as [A B].
  simpl in A, B. lia.
Qed.

(** X8.  For two non-empty curves without a frame of 0 Hz or +inf, as
    [extract_pitch] produces them, whose time axes have the lengths of the
    curves, the chain of [main] from the alignment to the report raises
    nothing: every index of the path can be read in the curves and in the
    time axes, and the report is the one of the deviation series along the
    path. *)
Theorem main_analysis_returns (times1 f0_1 times2 f0_2 : list F64) :
  f0_1 <> [] -> f0_2 <> [] ->
  Forall (regular_frame lg) f0_1 -> Forall (regular_frame lg) f0_2 ->
  (Z.of_nat (List.length f0_1 + List.length f0_2) <= max_frames)%Z ->
  List.length times1 = List.length f0_1 ->
  List.length times2 = List.length f0_2 ->
  exists wp D diffs,
    align_with_dtw lg f0_1 f0_2 = Ok (wp, D) /\
    calculate_pitch_diff lg f0_1 f0_2 wp = Ok diffs /\
    List.length diffs = List.length wp /\
    main_analysis lg times1 f0_1 times2 f0_2 = Ok (generate_report diffs).
Proof.
  intros H1 H2 R1 R2 Hr L1 L2.
  destruct (align_with_dtw_indices f0_1 f0_2 H1 H2 R1 R2 Hr)
    as (wp & D & E & Hin).
  destruct (calculate_pitch_diff_ok lg f0_1 f0_2 wp Hin) as (diffs & Ed).
  assert (I1 : forall i, In i (map fst wp) -> (i < List.length f0_1)%nat).
  { intros i Hi. apply in_map_iff in Hi. destruct Hi as ([i' j'] & <- & K).
    apply (Hin _ _ K). }
  assert (I2 : forall j, In j (map snd wp) -> (j < List.length f0_2)%nat).
  { intros j Hj. apply in_map_iff in Hj. destruct Hj as ([i' j'] & <- & K).
    apply (Hin _ _ K). }
  destruct (take_inside times1 (map fst wp)) as (at1 & Et1 & _);
    [now rewrite L1|].
  destruct (take_inside f0_1 (map fst wp) I1) as (a1 & Ea1 & _).
  destruct (take_inside f0_2 (map snd wp) I2) as (a2 & Ea2 & _).
  destruct (take_inside times2 (map snd wp)) as (at2 & Et2 & _);
    [now rewrite L2|].
  destruct (last_item_ok times1) as (t1 & El1).
  { intro K. rewrite K in L1. destruct f0_1; [congruence | discriminate]. }
  destruct (last_item_ok times2) as (t2 & El2).
  { intro K. rewrite K in L2. destruct f0_2; [congruence | discriminate]. }
  exists wp, D, diffs. split; [exact E|]. split; [exact Ed|].
  split; [exact (calculate_pitch_diff_length lg _ _ _ _ Ed)|].
  unfold main_analysis. rewrite E. simpl bind.
  unfold plot_pitch_comparison, plot_rhythm_analysis. simpl fst.
  rewrite Et1, Ea1, Ea2, Ed, Et2, El1, El2. reflexivity.
Qed.

(** X9.  What [plot_pitch_comparison] hands to the scatter plot has one time, one
    deviation and one colour per pair of the path, and the colours count
    the frames as the report does: green for accurate, orange for slightly
    off, red for seriously off, gray for the NaN entries that the report
    leaves out. *)
Theorem plot_colors_match_report (times1 f0_1 times2 f0_2 : list F64)
  (wp : list (nat * nat)) (p : pitch_plot) (r : report) :
  plot_pitch_comparison lg times1 f0_1 times2 f0_2 wp = Ok p ->
  generate_report (plot_diffs p) = Analysis r ->
  List.length (aligned_times p) = List.length wp /\
  List.length (plot_diffs p) = List.length wp /\
  List.length (colors p) = List.length wp /\
  count_occ string_dec (colors p) "green"%string = accurate r /\
  count_occ string_dec (colors p) "orange"%string = slightly_off r /\
  count_occ string_dec (colors p) "red"%string = seriously_off r /\
  (count_occ string_dec (colors p) "gray"%string + total r
   = List.length wp)%nat.
Proof.
  intros Hp Hr. unfold plot_pitch_comparison in Hp.
  apply bind_ok in Hp. destruct Hp as (at1 & Et & Hp).
  apply bind_ok in Hp. destruct Hp as (a1 & _ & Hp).
  apply bind_ok in Hp. destruct Hp as (a2 & _ & Hp).
  apply bind_ok in Hp. destruct Hp as (diffs & Ed & Hp).
  injection Hp as <-. simpl in *.
  apply take_length in Et. rewrite length_map in Et.
  apply calculate_pitch_diff_length in Ed.
  unfold generate_report in Hr.
  destruct (List.length (valid diffs) =? 0)%nat; [discriminate|].
  injection Hr as <-. simpl.
  destruct (colors_count diffs) as (G & O & R & Y).
  split; [exact Et|]. split; [exact Ed|].
  split; [now rewrite length_map|].
  rewrite <- Ed. repeat split; assumption.
Qed.

End Pipeline.

Lemma main_analysis_returns_witness :
  exists wp D diffs,
    align_with_dtw log2_linear [Fin 440; Fin 880] [Fin 450; NaN; Fin 900]
    = Ok (wp, D) /\
    main_analysis log2_linear [Fin 0; Fin 1] [Fin 440; Fin 880]
      [Fin 0; Fin 1; Fin 2] [Fin 450; NaN; Fin 900]
    = Ok (generate_report diffs).
Proof.
  destruct (main_analysis_returns log2_linear [Fin 0; Fin 1]
              [Fin 440; Fin 880] [Fin 0; Fin 1; Fin 2]
              [Fin 450; NaN; Fin 900]
              ltac:(discriminate) ltac:(discriminate)
              ltac:(regular_frames) ltac:(regular_frames)
              ltac:(frames_room) eq_refl eq_refl)
    as (wp & D & diffs & E & _ & _ & Hm).
  exists wp, D, diffs. split; assumption.
Defined.

Lemma plot_colors_match_report_witness :
  exists p r,
    plot_pitch_comparison log2_linear [Fin 0; Fin 1] [Fin 440; NaN]
      [Fin 0; Fin 1] [Fin 440; Fin 880] [(1, 1); (0, 0)]%nat = Ok p /\
    generate_report (plot_diffs p) = Analysis r /\
    count_occ string_dec (colors p) "green"%string = accurate r.
Proof.
  eexists. eexists.
  split; [vm_compute; reflexivity|].
  split; [vm_compute; reflexivity|].
  refine (proj1 (proj2 (proj2 (proj2
            (plot_colors_match_report log2_linear [Fin 0; Fin 1]
               [Fin 440; NaN] [Fin 0; Fin 1] [Fin 440; Fin 880]
               [(1, 1); (0, 0)]%nat _ _ _ _))))).
  - vm_compute. reflexivity.
  - vm_compute. reflexivity.
Defined.

(** ** More on the report *)

Lemma count_all (p : F64 -> bool) (l : list F64) :
  (forall d, In d l -> p d = true) -> count p l = List.length l.
Proof.
  induction l as [|d l IH]; intro H; [reflexivity|].
  rewrite count_cons, (H d (or_introl eq_refl)). simpl.
  f_equal. apply IH. intros x Hx. apply H. now right.
Qed.

Lemma count_le (p : F64 -> bool) (l : list F64) :
  (count p l <= List.length l)%nat.
Proof. unfold count. apply filter_length_le. Qed.

Lemma inject_nat_succ (n : nat) :
  inject_Z (Z.of_nat (S n)) == inject_Z (Z.of_nat n) + 1.
Proof. rewrite Nat2Z.inj_succ. unfold Z.succ. now rewrite inject_Z_plus. Qed.

Lemma inject_nat_pos (n : nat) : (0 < n)%nat -> 0 < inject_Z (Z.of_nat n).
Proof.
  intro H. change 0 with (inject_Z 0). rewrite <- Zlt_Qlt. lia.
Qed.

Lemma percent_range (k t : nat) :
  (k <= t)%nat -> (0 < t)%nat -> 0 <= percent k t /\ percent k t <= 100.
Proof.
  intros Hk Ht. unfold percent.
  assert (T := inject_nat_pos t Ht).
  assert (K : 0 <= inject_Z (100 * Z.of_nat k)).
  { change 0 with (inject_Z 0). rewrite <- Zle_Qle. lia. }
  assert (K' : inject_Z (100 * Z.of_nat k) <= 100 * inject_Z (Z.of_nat t)).
  { change 100 with (inject_Z 100). rewrite <- inject_Z_mult, <- Zle_Qle.
    lia. }
  split.
  - apply Qle_shift_div_l; [exact T | lra].
  - apply Qle_shift_div_r; [exact T | exact K'].
Qed.

(** The sum of accurate deviations stays within 25 cents per entry. *)
Lemma accurate_sum (l : list F64) :
  forall a,
    (forall d, In d l -> is_accurate d = true) ->
    exists s,
      fold_left fadd l (Fin a) = Fin s /\
      a - 25 * inject_Z (Z.of_nat (List.length l)) <= s /\
      s <= a + 25 * inject_Z (Z.of_nat (List.length l)).
Proof.
  induction l as [|d l IH]; intros a H.
  - exists a. change (inject_Z (Z.of_nat (List.length (@nil F64)))) with 0.
    split; [reflexivity|]. split; lra.
  - assert (Hd := H d (or_introl eq_refl)).
    destruct d as [| | |q]; try discriminate.
    unfold is_accurate in Hd. simpl in Hd. apply Qltb_true in Hd.
    apply Qabs_Qlt_condition in Hd.
    destruct (IH (a + q)) as (s & E & Lo & Hi);
      [intros x Hx; apply H; now right|].
    exists s. split; [exact E|].
    assert (S := inject_nat_succ (List.length l)).
    simpl List.length. rewrite S. split; lra.
Qed.

(** X10.  The three percentages of a report lie between 0 and 100. *)
Theorem report_percentages_in_range (diffs : list F64) (r : report) :
  generate_report diffs = Analysis r ->
  (0 <= accurate_pct r /\ accurate_pct r <= 100) /\
  (0 <= slightly_off_pct r /\ slightly_off_pct r <= 100) /\
  (0 <= seriously_off_pct r /\ seriously_off_pct r <= 100) /\
  (0 < total r)%nat /\ (total r <= List.length diffs)%nat.
Proof.
  unfold generate_report.
  destruct (List.length (valid diffs) =? 0)%nat eqn:E; [discriminate|].
  intro H. injection H as <-. simpl.
  apply Nat.eqb_neq in E.
  assert (T : (0 < List.length (valid diffs))%nat) by lia.
  split; [apply percent_range; [apply count_le | exact T]|].
  split; [apply percent_range; [apply count_le | exact T]|].
  split; [apply percent_range; [apply count_le | exact T]|].
  split; [exact T|]. unfold valid. apply filter_length_le.
Qed.

(** X11.  When every deviation that is not NaN is accurate, the accuracy is 100
    per cent, the verdict is the best one, the mean deviation is within 25
    cents and the report carries no directional note. *)
Theorem all_accurate_report (diffs : list F64) :
  (exists d, In d diffs /\ isnan d = false) ->
  (forall d, In d diffs -> isnan d = false -> is_accurate d = true) ->
  exists r m,
    generate_report diffs = Analysis r /\
    accurate r = total r /\
    accuracy_rate r == 100 /\
    assessment r = Excellent /\
    mean_diff r = Fin m /\ Qabs m <= 25 /\
    trend r = None.
Proof.
  intros Hex Hall.
  assert (Hv : forall d, In d (valid diffs) -> is_accurate d = true).
  { intros d Hd. apply valid_not_nan in Hd. now apply Hall. }
  assert (E0 := valid_some diffs Hex).
  assert (T : (0 < List.length (valid diffs))%nat).
  { apply Nat.eqb_neq in E0. lia. }
  assert (Tq := inject_nat_pos _ T).
  destruct (accurate_sum (valid diffs) 0 Hv) as (s & Es & Lo & Hi).
  assert (Em : np_mean (valid diffs)
               = Fin (s / inject_Z (Z.of_nat (List.length (valid diffs))))).
  { unfold np_mean. rewrite Es. unfold fdiv.
    now rewrite (Qcompare_Gt _ 0 Tq). }
  assert (Bm : Qabs (s / inject_Z (Z.of_nat (List.length (valid diffs))))
               <= 25).
  { apply Qabs_Qle_condition. split.
    - apply Qle_shift_div_l; [exact Tq | lra].
    - apply Qle_shift_div_r; [exact Tq | lra]. }
  assert (P : percent (List.length (valid diffs)) (List.length (valid diffs))
              == 100).
  { unfold percent. rewrite inject_Z_mult. field. lra. }
  unfold generate_report. rewrite E0.
  eexists. eexists. split; [reflexivity|]. simpl.
  rewrite (count_all is_accurate _ Hv).
  split; [reflexivity|]. split; [exact P|]. split; [|split; [exact Em|]].
  - unfold assess.
    assert (L : Qltb 80 (percent (List.length (valid diffs))
                           (List.length (valid diffs))) = true)
      by (apply Qltb_true; rewrite P; reflexivity).
    now rewrite L.
  - split; [exact Bm|].
    rewrite Em. unfold overall_trend, fgtb, fabs, fltb.
    assert (L : Qltb 30 (Qabs (s / inject_Z
                  (Z.of_nat (List.length (valid diffs))))) = false)
      by (apply Qltb_false; lra).
    now rewrite L.
Qed.

Lemma report_percentages_in_range_witness :
  exists r,
    generate_report [Fin 3; NaN; Fin 60] = Analysis r /\
    accurate_pct r <= 100.
Proof.
  eexists. split; [vm_compute; reflexivity|].
  refine (proj2 (proj1
            (report_percentages_in_range [Fin 3; NaN; Fin 60] _ _))).
  vm_compute. reflexivity.
Defined.

Lemma all_accurate_report_witness :
  exists r,
    generate_report [Fin 3; NaN; Fin (-20)] = Analysis r /\
    assessment r = Excellent /\ trend r = None.
Proof.
  destruct (all_accurate_report [Fin 3; NaN; Fin (-20)])
    as (r & m & E & _ & _ & Ha & _ & _ & Ht).
  - exists (Fin 3). split; [now left | reflexivity].
  - intros d [<-|[<-|[<-|[]]]] H; try reflexivity; discriminate.
  - exists r. repeat split; assumption.
Defined.

(** ** Note names *)






Lemma note_names_nth (k : nat) :
  (k < 12)%nat ->
  exists name, nth_error note_names k = Some name /\ name <> ""%string.
Proof.
  intro H.
  do 12 (destruct k as [|k];
         [eexists; split; [reflexivity | discriminate]|]).
  lia.
Qed.

Section Note_names.

Variable lg : Q -> Q.

(** [hz_to_note_name] past its guard. *)
Lemma hz_to_note_name_positive (q : Q) :
  0 < q ->
  hz_to_note_name lg (Fin q)
  = (let n := round_half_even (12 * lg (q / 440) + 69) in
     name <- getitem note_names (Z.to_nat (n mod 12)) ;;
     Ok (name ++ string_of_Z (n / 12 - 1))%string).
Proof.
  intro H. unfold hz_to_note_name.
  assert (G : fleb (Fin q) (Fin 0) = false).
  { unfold fleb. simpl. destruct (Qle_bool q 0) eqn:E; [|reflexivity].
    apply Qle_bool_iff in E. lra. }
  rewrite G. simpl isnan. simpl orb. cbv iota.
  unfold fdiv. rewrite (Qcompare_Gt 440 0) by lra.
  unfold np_log2. rewrite (Qcompare_Gt (q / 440) 0)
    by (apply Qlt_shift_div_l; lra).
  reflexivity.
Qed.

Lemma note_index (n : Z) :
  exists name,
    getitem note_names (Z.to_nat (n mod 12)) = Ok name /\ name <> ""%string.
Proof.
  assert (R : (0 <= n mod 12 < 12)%Z) by (apply Z.mod_pos_bound; lia).
  destruct (note_names_nth (Z.to_nat (n mod 12))) as (name & E & Hn); [lia|].
  exists name. unfold getitem. now rewrite E.
Qed.


(** X14.  [hz_to_note_name] returns the empty string exactly on the inputs that
    its guard catches, a NaN or a frequency that is not greater than 0; on
    any other input it returns a name that is not empty or, for +inf,
    raises [OverflowError]. *)
Theorem hz_to_note_name_empty_iff (hz : F64) :
  (hz_to_note_name lg hz = Ok ""%string <->
   isnan hz = true \/ fleb hz (Fin 0) = true) /\
  hz_to_note_name lg PosInf = Raise OverflowError.
Proof.
  split; [|reflexivity]. split.
  - intro H. destruct hz as [| | |q].
    + now left.
    + now right.
    + discriminate.
    + destruct (Qle_bool q 0) eqn:E; [now right|]. exfalso.
      assert (Hq : 0 < q).
      { apply Qnot_le_lt. intro K. apply Qle_bool_iff in K. congruence. }
      rewrite (hz_to_note_name_positive q Hq) in H. cbv zeta in H.
      destruct (note_index (round_half_even (12 * lg (q / 440) + 69)))
        as (name & En & Hn).
      rewrite En in H. simpl in H. injection H as H.
      destruct name; [now apply Hn | discriminate].
  - intro H. unfold hz_to_note_name.
    destruct H as [H|H]; rewrite H; [reflexivity|].
    now rewrite orb_true_r.
Qed.


End Note_names.



Example a440_note_name :
  hz_to_note_name log2_linear (Fin 440) = Ok "A4"%string /\
  hz_to_note_name log2_linear (Fin 55) = Ok "A1"%string /\
  hz_to_note_name log2_linear (Fin 0) = Ok ""%string.
Proof. repeat split; vm_compute; reflexivity. Qed.

(** ** The font choice *)

Lemma font_in_true (font : string) (available_fonts : list string) :
  font_in font available_fonts = true <-> In font available_fonts.
Proof.
  unfold font_in. rewrite existsb_exists. split.
  - intros (x & Hx & E). apply String.eqb_eq in E. now subst.
  - intro H. exists font. split; [exact H | apply String.eqb_refl].
Qed.

Lemma setup_font_loop_first (fonts available_fonts : list string)
  (rc : rc_params) :
  (snd (setup_font_loop fonts available_fonts rc) = false ->
   fst (setup_font_loop fonts available_fonts rc) = rc /\
   forall f, In f fonts -> ~ In f available_fonts) /\
  (snd (setup_font_loop fonts available_fonts rc) = true ->
   exists before f after,
     fonts = before ++ f :: after /\
     In f available_fonts /\
     (forall g, In g before -> ~ In g available_fonts) /\
     fst (setup_font_loop fonts available_fonts rc)
     = {| font_sans_serif := [f; "DejaVu Sans"%string];
          axes_unicode_minus := false |}).
Proof.
  induction fonts as [|font fonts [IHf IHt]]; simpl.
  - split; [|discriminate]. intros _. split; [reflexivity|]. intros f [].
  - destruct (font_in font available_fonts) eqn:E; simpl.
    + split; [discriminate|]. intros _.
      exists [], font, fonts. split; [reflexivity|].
      split; [now apply font_in_true|]. split; [intros g []|reflexivity].
    + assert (Hn : ~ In font available_fonts).
      { intro K. apply font_in_true in K. congruence. }
      split.
      * intro H. destruct (IHf H) as [Hrc Hall]. split; [exact Hrc|].
        intros f [<-|Hf]; [exact Hn | now apply Hall].
      * intro H. destruct (IHt H) as (before & f & after & -> & Hf & Hb & Hrc).
        exists (font :: before), f, after. split; [reflexivity|].
        split; [exact Hf|]. split; [|exact Hrc].
        intros g [<-|Hg]; [exact Hn | now apply Hb].
Qed.

(** X16.  [setup_chinese_font] returns [True] exactly when one of its eight font
    families is available; it then selects the first available one in the
    order of its list, followed by the fallback family, and switches the
    unicode minus off.  When none is available it returns [False] and
    leaves the settings as they were. *)
Theorem setup_chinese_font_first (available_fonts : list string)
  (rc : rc_params) :
  (snd (setup_chinese_font available_fonts rc) = true <->
   exists f, In f chinese_fonts /\ In f available_fonts) /\
  (snd (setup_chinese_font available_fonts rc) = false ->
   fst (setup_chinese_font available_fonts rc) = rc) /\
  (snd (setup_chinese_font available_fonts rc) = true ->
   exists before f after,
     chinese_fonts = before ++ f :: after /\
     In f available_fonts /\
     (forall g, In g before -> ~ In g available_fonts) /\
     font_sans_serif (fst (setup_chinese_font available_fonts rc))
     = [f; "DejaVu Sans"%string] /\
     axes_unicode_minus (fst (setup_chinese_font available_fonts rc))
     = false).
Proof.
  unfold setup_chinese_font.
  destruct (setup_font_loop_first chinese_fonts available_fonts rc)
    as [Hf Ht].
  split; [split|split].
  - intro H. destruct (Ht H) as (before & f & after & E & Hin & _).
    exists f. split; [|exact Hin]. rewrite E. apply in_elt.
  - intros (f & Hc & Ha).
    destruct (snd (setup_font_loop chinese_fonts available_fonts rc)) eqn:E;
      [reflexivity|].
    destruct (Hf eq_refl) as [_ Hall]. exfalso. exact (Hall f Hc Ha).
  - intro H. apply (Hf H).
  - intro H. destruct (Ht H) as (before & f & after & E & Hin & Hb & Hrc).
    exists before, f, after. rewrite Hrc. repeat split; assumption.
Qed.

(** ** The verdict in terms of frame counts *)

Lemma percent_gt (c : Z) (k t : nat) :
  (0 < t)%nat ->
  (inject_Z c < percent k t <-> (c * Z.of_nat t < 100 * Z.of_nat k)%Z).
Proof.
  intro Ht. assert (T := inject_nat_pos t Ht). unfold percent.
  rewrite Zlt_Qlt, inject_Z_mult. split; intro H.
  - apply (Qmult_lt_compat_r _ _ _ T) in H.
    assert (E : inject_Z (100 * Z.of_nat k) / inject_Z (Z.of_nat t)
                * inject_Z (Z.of_nat t) == inject_Z (100 * Z.of_nat k))
      by (field; lra).
    rewrite E in H. exact H.
  - apply Qlt_shift_div_l; assumption.
Qed.

(** X12.  The verdict of a report read on its counts: excellent when more than
    four fifths of the counted frames are accurate, good when more than
    three fifths are, needs practice when more than two fifths are, and
    needs much practice otherwise. *)
Theorem verdict_by_counts (diffs : list F64) (r : report) :
  generate_report diffs = Analysis r ->
  (assessment r = Excellent <-> (4 * total r < 5 * accurate r)%nat) /\
  (assessment r = Good <->
     (3 * total r < 5 * accurate r <= 4 * total r)%nat) /\
  (assessment r = NeedsPractice <->
     (2 * total r < 5 * accurate r <= 3 * total r)%nat) /\
  (assessment r = NeedsMuchPractice <-> (5 * accurate r <= 2 * total r)%nat).
Proof.
  unfold generate_report.
  destruct (List.length (valid diffs) =? 0)%nat eqn:E; [discriminate|].
  intro H. injection H as <-. simpl.
  apply Nat.eqb_neq in E.
  set (t := List.length (valid diffs)) in *.
  set (a := count is_accurate (valid diffs)).
  assert (Ht : (0 < t)%nat) by lia.
  destruct (assess_bands (percent a t)) as (B1 & B2 & B3 & B4).
  assert (G80 := percent_gt 80 a t Ht).
  assert (G60 := percent_gt 60 a t Ht).
  assert (G40 := percent_gt 40 a t Ht).
  change (inject_Z 80) with 80 in G80.
  change (inject_Z 60) with 60 in G60.
  change (inject_Z 40) with 40 in G40.
  assert (N80 : percent a t <= 80 <-> ~ 80 < percent a t)
    by (split; [apply Qle_not_lt | apply Qnot_lt_le]).
  assert (N60 : percent a t <= 60 <-> ~ 60 < percent a t)
    by (split; [apply Qle_not_lt | apply Qnot_lt_le]).
  assert (N40 : percent a t <= 40 <-> ~ 40 < percent a t)
    by (split; [apply Qle_not_lt | apply Qnot_lt_le]).
  rewrite B1, B2, B3, B4, N80, N60, N40, G80, G60, G40.
  repeat split; lia.
Qed.

Lemma verdict_by_counts_witness :
  exists r,
    generate_report [Fin 3; Fin 4; Fin 5; Fin 6; Fin 70] = Analysis r /\
    assessment r = Good.
Proof.
  eexists. split; [vm_compute; reflexivity|].
  refine (proj2 (proj1 (proj2
            (verdict_by_counts [Fin 3; Fin 4; Fin 5; Fin 6; Fin 70] _ _))) _).
  - vm_compute. reflexivity.
  - simpl. lia.
Defined.

(** ** A curve of one frame *)

Lemma backward_path_first_row (l : list (nat * nat)) :
  forall j,
    stepwise backward_step ((0, j)%nat :: l) ->
    last ((0, j)%nat :: l) (0, 0)%nat = (0, 0)%nat ->
    (0, j)%nat :: l = map (fun j => (0, j)%nat) (rev (seq 0 (S j))).
Proof.
  induction l as [|[i' j'] l IH]; intros j S L.
  - simpl in L. injection L as ->. reflexivity.
  - destruct S as [R S].
    change (last ((0, j)%nat :: (i', j') :: l) (0, 0)%nat)
      with (last ((i', j') :: l) (0, 0)%nat) in L.
    assert (E : i' = 0%nat /\ j = Datatypes.S j').
    { destruct R as [H|[H|H]]; simpl in H; injection H as H1 H2;
        try discriminate; now subst. }
    destruct E as [-> ->].
    rewrite (IH j' S L). rewrite (seq_S (Datatypes.S j')), rev_app_distr.
    reflexivity.
Qed.

Lemma backward_path_first_column (l : list (nat * nat)) :
  forall i,
    stepwise backward_step ((i, 0)%nat :: l) ->
    last ((i, 0)%nat :: l) (0, 0)%nat = (0, 0)%nat ->
    (i, 0)%nat :: l = map (fun i => (i, 0)%nat) (rev (seq 0 (S i))).
Proof.
  induction l as [|[i' j'] l IH]; intros i S L.
  - simpl in L. injection L as ->. reflexivity.
  - destruct S as [R S].
    change (last ((i, 0)%nat :: (i', j') :: l) (0, 0)%nat)
      with (last ((i', j') :: l) (0, 0)%nat) in L.
    assert (E : j' = 0%nat /\ i = Datatypes.S i').
    { destruct R as [H|[H|H]]; simpl in H; injection H as H1 H2;
        try discriminate; now subst. }
    destruct E as [-> ->].
    rewrite (IH i' S L). rewrite (seq_S (Datatypes.S i')), rev_app_distr.
    reflexivity.
Qed.

Section Single_frame.

Variable lg : Q -> Q.

(** X6.  A curve of a single frame is aligned with every frame of the other
    curve, from its last frame down to its first, when no frame of the two
    curves is 0 Hz or +inf. *)
Theorem single_frame_alignment (x : F64) (f0 : list F64) :
  f0 <> [] ->
  regular_frame lg x -> Forall (regular_frame lg) f0 ->
  (Z.of_nat (S (List.length f0)) <= max_frames)%Z ->
  (exists D,
     align_with_dtw lg [x] f0
     = Ok (map (fun j => (0, j)%nat) (rev (seq 0 (List.length f0))), D)) /\
  (exists D,
     align_with_dtw lg f0 [x]
     = Ok (map (fun i => (i, 0)%nat) (rev (seq 0 (List.length f0))), D)).
Proof.
  intros H Rx R Hr.
  assert (R1 : Forall (regular_frame lg) [x]) by (repeat constructor; exact Rx).
  assert (N : exists n, List.length f0 = S n).
  { destruct f0; [congruence|]. eexists. reflexivity. }
  destruct N as (n & En).
  split.
  - destruct (align_with_dtw_path lg [x] f0 ltac:(discriminate) H R1 R)
      as (wp & D & E & Hh & Hl & Hs); [exact Hr|].
    exists D. rewrite E. f_equal. f_equal.
    destruct wp as [|p l]; [discriminate|]. injection Hh as ->.
    simpl List.length in *. rewrite En in *.
    replace (S n - 1)%nat with n in * by lia.
    now apply backward_path_first_row.
  - destruct (align_with_dtw_path lg f0 [x] H ltac:(discriminate) R R1)
      as (wp & D & E & Hh & Hl & Hs).
    { simpl List.length. rewrite Nat.add_1_r. exact Hr. }
    exists D. rewrite E. f_equal. f_equal.
    destruct wp as [|p l]; [discriminate|]. injection Hh as ->.
    simpl List.length in *. rewrite En in *.
    replace (S n - 1)%nat with n in * by lia.
    now apply backward_path_first_column.
Qed.

(** X5.  For two non-empty curves without a frame of 0 Hz or +inf, the
    accumulated-cost matrix that the aligner returns has a row per frame of
    the first curve and a column per frame of the second, and its entries
    are finite and not negative. *)
Theorem alignment_cost_matrix (f0_1 f0_2 : list F64) :
  f0_1 <> [] -> f0_2 <> [] ->
  Forall (regular_frame lg) f0_1 -> Forall (regular_frame lg) f0_2 ->
  (Z.of_nat (List.length f0_1 + List.length f0_2) <= max_frames)%Z ->
  exists wp D,
    align_with_dtw lg f0_1 f0_2 = Ok (wp, D) /\
    List.length D = List.length f0_1 /\
    (forall i, (i < List.length f0_1)%nat ->
       List.length (nth i D []) = List.length f0_2) /\
    (forall i j, (i < List.length f0_1)%nat -> (j < List.length f0_2)%nat ->
       exists v, nth j (nth i D []) PosInf = Fin v /\ 0 <= v).
Proof.
  intros H1 H2 R1 R2 Hr. unfold align_with_dtw. cbv zeta.
  rewrite !filled_finite.
  assert (B1 := filled_cents lg f0_1 R1).
  assert (B2 := filled_cents lg f0_2 R2).
  set (xs := map (fun x => finite_value (nan_to_num 0 x))
               (hz_to_cents lg f0_1 ref_hz_default)) in *.
  set (ys := map (fun x => finite_value (nan_to_num 0 x))
               (hz_to_cents lg f0_2 ref_hz_default)) in *.
  assert (L1 : List.length xs = List.length f0_1).
  { unfold xs. now rewrite length_map, hz_to_cents_length. }
  assert (L2 : List.length ys = List.length f0_2).
  { unfold ys. now rewrite length_map, hz_to_cents_length. }
  assert (X1 : xs <> []).
  { intro E. rewrite E in L1. destruct f0_1; [congruence | discriminate]. }
  assert (X2 : ys <> []).
  { intro E. rewrite E in L2. destruct f0_2; [congruence | discriminate]. }
  rewrite <- L1, <- L2 in Hr.
  destruct (dtw_finite_result xs ys X1 X2 B1 B2 Hr) as [E _].
  set (C := cdist (map Fin xs) (map Fin ys)) in *.
  set (cells := accu_cost C (repeat PosInf (S (List.length ys)))
                  (cost_at C 0 0, 0%nat)) in *.
  assert (LC : List.length C = List.length xs) by apply dtw_C_length.
  exists (dtw_backtracking (map (map snd) cells)), (map (map fst) cells).
  rewrite E. split; [reflexivity|]. rewrite <- L1, <- L2. split; [|split].
  - unfold cells. now rewrite length_map, accu_cost_length.
  - intros i Hi. change (@nil F64) with (map (@fst F64 nat) []).
    rewrite map_nth, length_map. unfold cells.
    apply (accu_cost_row_length (List.length ys) C (dtw_C_rows xs ys));
      [apply repeat_length | lia].
  - intros i j Hi Hj. rewrite D_at_cells.
    destruct (cells_finite C (List.length ys) (cost_at C 0 0) cost_limit
                (dtw_C_rows xs ys) (dtw_C_finite xs ys B1 B2) eq_refl
                (proj1 cost_limit_room) (dtw_costs_room xs ys Hr) i j)
      as (v & k & Ev & Hv & _); [lia | exact Hj|].
    fold cells in Ev. rewrite Ev. exists v. split; [reflexivity | exact Hv].
Qed.

End Single_frame.

Lemma single_frame_alignment_witness :
  [Fin 450; NaN; Fin 900] <> [] /\
  exists D,
    align_with_dtw log2_linear [Fin 440] [Fin 450; NaN; Fin 900]
    = Ok ([(0, 2); (0, 1); (0, 0)]%nat, D).
Proof.
  split; [discriminate|].
  exact (proj1 (single_frame_alignment log2_linear (Fin 440)
                  [Fin 450; NaN; Fin 900] ltac:(discriminate)
                  ltac:(regular_frames) ltac:(regular_frames)
                  ltac:(frames_room))).
Defined.

Lemma alignment_cost_matrix_witness :
  [Fin 440; Fin 880] <> [] /\ [Fin 450; NaN; Fin 900] <> [] /\
  exists wp D,
    align_with_dtw log2_linear [Fin 440; Fin 880] [Fin 450; NaN; Fin 900]
    = Ok (wp, D) /\
    List.length D = 2%nat.
Proof.
  split; [discriminate|]. split; [discriminate|].
  destruct (alignment_cost_matrix log2_linear
              [Fin 440; Fin 880] [Fin 450; NaN; Fin 900]
              ltac:(discriminate) ltac:(discriminate)
              ltac:(regular_frames) ltac:(regular_frames)
              ltac:(frames_room))
    as (wp & D & E & L & _).
  exists wp, D. split; assumption.
Defined.
